(** * django-visual-editor: the [cleanup_editor_images] management command

    A shallow embedding of
    [django_visual_editor/management/commands/cleanup_editor_images.py]
    ([Command.handle]) together with the properties of the orphaned-image
    scan that the specification states about it.

    Conventions of the embedding.
    - The text a model attribute holds is a Python [str]: a list of Unicode
      code points.  Names and messages, which the command only prints, are
      [string]s.
    - The class [\d] of a [str] pattern and the digits [int()] reads are the
      decimal digits of the interpreter's Unicode database.  The digits
      [0-9] are written out; the table of the decimal digits beyond ASCII is
      a component of the environment.
    - Python [int] is [Z]; [int()] refuses a digit string longer than
      [int_max_str_digits].  A [set] of [int] is a [gset Z].
    - [self.stdout.write] appends one styled line to the output.
    - An exception that leaves [handle] is an explicit outcome carrying the
      state of the image table and of the file storage at that moment.
    - The database, the storage and the registered models are Django's and
      the project's; what they do when asked is part of the environment. *)

From Stdlib Require Import ZArith NArith List Ascii String Lia.
From stdpp Require Import base tactics option list gmap sets strings pretty sorting.

Local Open Scope string_scope.
Local Open Scope list_scope.
Local Open Scope Z_scope.

(** ** Text *)

(** A Python [str] as the text of an attribute: its code points. *)
Definition Text : Type := list N.

(** The text of an ASCII literal. *)
Definition text (s : string) : Text := N_of_ascii <$> list_ascii_of_string s.

(** ** The pattern [data-image-id="(\d+)"] *)

Module Re.

Definition QUOTE : N := 34%N.

(** The literal part of the pattern up to and including the opening
    quote. *)
Definition MARKER_OPEN : Text := text "data-image-id=" ++ [QUOTE].

Section Pattern.

(** The decimal digits beyond ASCII (category [Nd]) with their values. *)
Variable unicode_decimal : N → option Z.

(** The value of a decimal digit; [None] for any other character. *)
Definition decimal (c : N) : option Z :=
  if (c <? 128)%N then
    if ((48 <=? c) && (c <=? 57))%N then Some (Z.of_N c - 48) else None
  else unicode_decimal c.

(** [\d]. *)
Definition is_digit (c : N) : bool :=
  match decimal c with
  | Some _ => true
  | None => false
  end.

(** Consume the literal [p] at the head of [s]. *)
Fixpoint strip_prefix (p s : Text) : option Text :=
  match p, s with
  | [], _ => Some s
  | _ :: _, [] => None
  | a :: p', b :: s' =>
      if (a =? b)%N then strip_prefix p' s' else None
  end.

(** The greedy [\d*]: the longest run of digits at the head of [s] and
    what follows it. *)
Fixpoint span_digits (s : Text) : Text * Text :=
  match s with
  | c :: s' =>
      if is_digit c
      then let '(ds, rest) := span_digits s' in (c :: ds, rest)
      else ([], s)
  | [] => ([], [])
  end.

(** One attempt of the whole pattern at the head of [s]: the captured
    group and the text after the match.  Giving back digits to the greedy
    [\d+] can never help, as the character after a shorter run is a digit
    and not the closing quote, so the attempt is deterministic. *)
Definition match_at (s : Text) : option (Text * Text) :=
  match strip_prefix MARKER_OPEN s with
  | None => None
  | Some body =>
      match span_digits body with
      | ((_ :: _) as ds, q :: tail) =>
          if (q =? QUOTE)%N then Some (ds, tail) else None
      | _ => None
      end
  end.

(** [re.findall]: scan from the left; where the pattern matches, record
    the group and resume after the match, otherwise move on by one
    character.  [fuel] bounds the number of positions tried. *)
Fixpoint findall_from (fuel : nat) (s : Text) : list Text :=
  match fuel with
  | O => []
  | S fuel' =>
      match s with
      | [] => []
      | _ :: s' =>
          match match_at s with
          | Some (ds, tail) => ds :: findall_from fuel' tail
          | None => findall_from fuel' s'
          end
      end
  end.

(** [re.findall(r'data-image-id="(\d+)"', content)]. *)
Definition findall (content : Text) : list Text :=
  findall_from (length content) content.

End Pattern.

End Re.

(** ** Data model *)

(** A row of the [EditorImage] table, with the columns the command reads:
    the primary key, the name of the stored file ([image.name], the
    locator) and the upload time. *)
Module EditorImage.
Record t := Build {
  id : Z;
  image : string;
  uploaded_at : Z;
}.
End EditorImage.

Global Instance EditorImage_eq_dec : EqDecision EditorImage.t.
Proof. solve_decision. Defined.

(** Modelled from the spec: the declaration of [EditorImage] (its
    [Meta.ordering]) is not among the sources; the specification states that
    listing is by [uploaded_at] descending, and [test_editor_image_ordering]
    checks it.  The order of rows with equal upload times is the one the
    sort leaves them in. *)
Definition newest_first (a b : EditorImage.t) : Prop :=
  EditorImage.uploaded_at b ≤ EditorImage.uploaded_at a.

Global Instance newest_first_dec : RelDecision newest_first.
Proof. intros a b. unfold newest_first. apply _. Defined.

(** The classes [isinstance] tells apart: a field derived from [TextField],
    one derived from [CharField], any other field. *)
Inductive FieldClass := TextField | CharField | OtherField.

Record Field := {
  field_name : string;
  field_class : FieldClass;
}.

(** An exception is carried as its message, [str(e)]. *)
Definition Exception := string.

Inductive PyValue :=
| PyNone
| PyStr (s : Text).

(** What reading an attribute of a loaded instance does.  A name that is
    absent from the instance raises [AttributeError], which [getattr] with a
    default absorbs; [AttrRaises] is any other exception raised by the
    read. *)
Inductive Attr :=
| AttrValue (v : PyValue)
| AttrRaises (e : Exception).

Definition Instance := gmap string Attr.

(** What iterating [model.objects.all()] does: the queryset runs its query
    and builds every instance, all columns of all rows, before the loop
    body is entered for the first; it yields the instances, or it raises
    (a failing query, a row that cannot be decoded) without having yielded
    any. *)
Inductive Fetch :=
| Fetched (instances : list Instance)
| FetchRaises (e : Exception).

(** A registered model class: [__name__], [_meta.get_fields()] and what
    iterating [objects.all()] does. *)
Record Model := {
  model_name : string;
  model_fields : list Field;
  model_objects : Fetch;
}.

(** What the command is run against and cannot change.
    - [apps_models]: the registered models ([apps.get_models()]) with
      their instances.
    - [unicode_decimal]: the decimal digits beyond ASCII with their
      values.
    - [query_error ids]: the exception the database raises when [ids] are
      bound as the parameters of [id__in], if it raises one.
    - [storage_error n]: the exception the storage backend raises when
      asked to delete the file [n], if it raises one.
    - [db_error k]: the exception the database raises when asked to
      delete the row with primary key [k], if it raises one. *)
Record Env := {
  apps_models : list Model;
  unicode_decimal : N → option Z;
  query_error : gset Z → option Exception;
  storage_error : string → option Exception;
  db_error : Z → option Exception;
}.

Inductive Style := PLAIN | WARNING | SUCCESS.

Global Instance Style_eq_dec : EqDecision Style.
Proof. solve_decision. Defined.

Definition Line : Type := Style * string.

(** The image table and the file storage. *)
Record World := {
  editor_images : list EditorImage.t;
  media : gset string;
}.

(** The state [handle] runs in: the world, what was written to [stdout],
    and the two local variables that the scan loop updates in place. *)
Record State := {
  world : World;
  stdout : list Line;
  used_image_ids : gset Z;
  models_checked : nat;
}.

(** ** Commands: state and exceptions *)

Inductive Result (A : Type) :=
| Ok (a : A) (s : State)
| Raise (e : Exception) (s : State).
Global Arguments Ok {A} a s.
Global Arguments Raise {A} e s.

Definition Cmd (A : Type) : Type := State → Result A.

Global Instance Cmd_ret : MRet Cmd := λ A a s, Ok a s.

Global Instance Cmd_bind : MBind Cmd := λ A B k m s,
  match m s with
  | Ok a s' => k a s'
  | Raise e s' => Raise e s'
  end.

Definition raise {A} (e : Exception) : Cmd A := λ s, Raise e s.

(** [try: body except Exception as e: handler e]. *)
Definition try_except {A} (body : Cmd A) (handler : Exception → Cmd A) : Cmd A :=
  λ s, match body s with
       | Ok a s' => Ok a s'
       | Raise e s' => handler e s'
       end.

(** [for x in xs: body x]. *)
Fixpoint for_each {A} (xs : list A) (body : A → Cmd unit) : Cmd unit :=
  match xs with
  | [] => mret tt
  | x :: xs' => body x ;; for_each xs' body
  end.

Definition get {A} (f : State → A) : Cmd A := λ s, Ok (f s) s.

Definition modify (f : State → State) : Cmd unit := λ s, Ok tt (f s).

Definition write (style : Style) (msg : string) : Cmd unit :=
  modify (λ s, {| world := world s; stdout := stdout s ++ [(style, msg)];
                  used_image_ids := used_image_ids s;
                  models_checked := models_checked s |}).

Definition set_world (w : World) : Cmd unit :=
  modify (λ s, {| world := w; stdout := stdout s;
                  used_image_ids := used_image_ids s;
                  models_checked := models_checked s |}).

(** ** The ORM, the storage, attribute access and [int], as far as [handle]
    uses them *)

(** A lazy queryset over [EditorImage]: the rows it selects from the
    table, and the ids its query binds as parameters.  The query is run
    against the table each time the queryset is counted or iterated. *)
Record QuerySet := {
  select : list EditorImage.t → list EditorImage.t;
  bound : gset Z;
}.

(** [EditorImage.objects.all()], in the model's default ordering. *)
Definition objects_all : QuerySet :=
  {| select := merge_sort newest_first; bound := ∅ |}.

(** [qs.exclude(id__in=ids)]. *)
Definition exclude_id_in (ids : gset Z) (qs : QuerySet) : QuerySet :=
  {| select := λ rows, filter (λ image, EditorImage.id image ∉ ids)
                              (select qs rows);
     bound := bound qs ∪ ids |}.

(** [isinstance(field, (models.TextField, models.CharField))]. *)
Definition is_text_field (field : Field) : bool :=
  match field_class field with
  | TextField | CharField => true
  | OtherField => false
  end.

(** [getattr(instance, name, default)]. *)
Definition getattr (instance : Instance) (name : string) (default : PyValue)
  : Cmd PyValue :=
  match instance !! name with
  | None => mret default
  | Some (AttrValue v) => mret v
  | Some (AttrRaises e) => raise e
  end.

(** Iterating [model.objects.all()]. *)
Definition iterate (objects : Fetch) : Cmd (list Instance) :=
  match objects with
  | Fetched instances => mret instances
  | FetchRaises e => raise e
  end.

(** Truth value of a Python value: [None] and the empty string are false. *)
Definition truthy (v : PyValue) : bool :=
  match v with
  | PyNone => false
  | PyStr [] => false
  | PyStr (_ :: _) => true
  end.

Definition str (v : PyValue) : Text :=
  match v with
  | PyNone => text "None"
  | PyStr s => s
  end.

(** The longest digit string [int()] converts: the interpreter's default
    for [sys.get_int_max_str_digits()]. *)
Definition int_max_str_digits : nat := 4300.

(** The [ValueError] of [int()] for a longer one. *)
Definition int_error (ds : Text) : Exception :=
  "Exceeds the limit (" +:+ pretty int_max_str_digits +:+
  " digits) for integer string conversion: value has " +:+
  pretty (length ds) +:+
  " digits; use sys.set_int_max_str_digits() to increase the limit".

(** [used_image_ids.add(z)], the step of [used_image_ids.update]. *)
Definition used_image_ids_add (z : Z) : Cmd unit :=
  modify (λ s, {| world := world s; stdout := stdout s;
                  used_image_ids := used_image_ids s ∪ {[z]};
                  models_checked := models_checked s |}).

Definition set_used_image_ids (ids : gset Z) : Cmd unit :=
  modify (λ s, {| world := world s; stdout := stdout s;
                  used_image_ids := ids;
                  models_checked := models_checked s |}).

Definition set_models_checked (n : nat) : Cmd unit :=
  modify (λ s, {| world := world s; stdout := stdout s;
                  used_image_ids := used_image_ids s;
                  models_checked := n |}).

(** The storage without the file [name]. *)
Definition remove_file (name : string) (w : World) : World :=
  {| editor_images := editor_images w; media := media w ∖ {[name]} |}.

(** The table without the rows whose primary key is [pk]. *)
Definition remove_row (pk : Z) (w : World) : World :=
  {| editor_images := filter (λ row, EditorImage.id row ≠ pk) (editor_images w);
     media := media w |}.

Section Command.

Variable env : Env.

(** The value of a string of decimal digits, most significant digit
    first. *)
Definition int_value (ds : Text) : Z :=
  fold_left (λ acc c, 10 * acc + default 0 (Re.decimal (unicode_decimal env) c))
            ds 0.

(** [int(img_id)] on a string of decimal digits. *)
Definition int (ds : Text) : Cmd Z :=
  if decide (int_max_str_digits < length ds)%nat then raise (int_error ds)
  else mret (int_value ds).

(** The exception of a query that binds [ids]; a query without parameters
    binds nothing. *)
Definition bind_error (ids : gset Z) : option Exception :=
  if decide (ids = ∅) then None else query_error env ids.

(** Running the query: what iterating the queryset yields. *)
Definition fetch (qs : QuerySet) : Cmd (list EditorImage.t) :=
  match bind_error (bound qs) with
  | Some e => raise e
  | None => get (λ s, select qs (editor_images (world s)))
  end.

(** [qs.count()]. *)
Definition count (qs : QuerySet) : Cmd nat :=
  rows ← fetch qs; mret (length rows).

(** [Storage.delete(name)] of the file-system storage: a file that is not
    there is passed over in silence ([FileNotFoundError] is swallowed); any
    other failure is raised. *)
Definition storage_delete (name : string) : Cmd unit :=
  match storage_error env name with
  | Some e => raise e
  | None => w ← get world; set_world (remove_file name w)
  end.

(** [image.image.delete(save=False)]: a field file without a name is
    false and nothing is done for it. *)
Definition FieldFile_delete (image : EditorImage.t) : Cmd unit :=
  if decide (EditorImage.image image = "") then mret tt
  else storage_delete (EditorImage.image image).

(** [image.delete()]: [DELETE ... WHERE id = pk]; deleting no row is not
    an error. *)
Definition Model_delete (image : EditorImage.t) : Cmd unit :=
  match db_error env (EditorImage.id image) with
  | Some e => raise e
  | None => w ← get world; set_world (remove_row (EditorImage.id image) w)
  end.

(** [used_image_ids.update(int(img_id) for img_id in image_ids)]: the
    generator is consumed one id at a time, each id being added before the
    next is converted. *)
Definition used_image_ids_update (image_ids : list Text) : Cmd unit :=
  for_each image_ids (λ img_id, z ← int img_id; used_image_ids_add z).

(** The body of [for instance in model.objects.all()]. *)
Definition scan_instance (field : Field) (instance : Instance) : Cmd unit :=
  content ← getattr instance (field_name field) (PyStr []);
  if negb (truthy content) then mret tt (* continue *)
  else
    let image_ids := Re.findall (unicode_decimal env) (str content) in
    used_image_ids_update image_ids.

(** The body of [for field in text_fields]: the [try] encloses the whole
    loop over the instances, the query that fetches them included. *)
Definition scan_field (model : Model) (field : Field) : Cmd unit :=
  try_except
    (instances ← iterate (model_objects model);
     for_each instances (scan_instance field))
    (λ e, write WARNING
            ("Error checking " +:+ model_name model +:+ "." +:+
             field_name field +:+ ": " +:+ e)).

(** The body of [for model in apps.get_models()]. *)
Definition scan_model (model : Model) : Cmd unit :=
  let text_fields := List.filter is_text_field (model_fields model) in
  match text_fields with
  | [] => mret tt (* continue *)
  | _ :: _ =>
      n ← get models_checked;
      set_models_checked (n + 1);;
      write PLAIN ("Checking " +:+ model_name model +:+ "...");;
      for_each text_fields (scan_field model)
  end.

Definition would_delete_line (image : EditorImage.t) : string :=
  "  Would delete: " +:+ EditorImage.image image +:+
  " (ID: " +:+ pretty (EditorImage.id image) +:+ ")".

Definition deleting_line (image : EditorImage.t) : string :=
  "Deleting: " +:+ EditorImage.image image +:+
  " (ID: " +:+ pretty (EditorImage.id image) +:+ ")".

(** The body of the deletion loop. *)
Definition delete_image (image : EditorImage.t) : Cmd unit :=
  write PLAIN (deleting_line image);;
  FieldFile_delete image;;
  Model_delete image.

(** [Command.handle], with [options["dry_run"]] as its argument. *)
Definition handle (dry_run : bool) : Cmd unit :=
  write PLAIN "Searching for models with text/HTML fields...";;
  let all_images := objects_all in
  total_images ← count all_images;
  write PLAIN ("Found " +:+ pretty total_images +:+ " uploaded images");;
  set_used_image_ids ∅;;
  set_models_checked 0;;
  for_each (apps_models env) scan_model;;
  checked ← get models_checked;
  write PLAIN ("Checked " +:+ pretty checked +:+ " models");;
  used ← get used_image_ids;
  write PLAIN ("Found " +:+ pretty (size used) +:+ " images in use");;
  let unused_images := exclude_id_in used all_images in
  unused_count ← count unused_images;
  if (unused_count =? 0)%nat then
    write SUCCESS "No unused images found!" (* return *)
  else
    write PLAIN ("Found " +:+ pretty unused_count +:+ " unused images");;
    if dry_run then
      write WARNING "DRY RUN - No images will be deleted";;
      images ← fetch unused_images;
      for_each images (λ image, write PLAIN (would_delete_line image))
    else
      images ← fetch unused_images;
      for_each images delete_image;;
      write SUCCESS ("Successfully deleted " +:+ pretty unused_count +:+
                     " unused images").

End Command.

(** The state the command starts in. *)
Definition start (w : World) : State :=
  {| world := w; stdout := []; used_image_ids := ∅; models_checked := 0 |}.

(** [call_command("cleanup_editor_images", ...)] on the world [w]. *)
Definition scan (env : Env) (dry_run : bool) (w : World) : Result unit :=
  handle env dry_run (start w).

(** The state a run ends in, however it ends. *)
Definition final {A} (r : Result A) : State :=
  match r with
  | Ok _ s => s
  | Raise _ s => s
  end.

Definition raised {A} (r : Result A) : option Exception :=
  match r with
  | Ok _ _ => None
  | Raise e _ => Some e
  end.

(** ** Markers, as the specification words them *)

(** The text [data-image-id="<digits>"]; the code point of the double
    quote is 34. *)
Definition marker (digits : Text) : Text :=
  text "data-image-id=" ++ [34%N] ++ digits ++ [34%N].

(** The number a string of digit values denotes, most significant first. *)
Fixpoint positional (values : list Z) : Z :=
  match values with
  | [] => 0
  | v :: values' => v * 10 ^ Z.of_nat (length values') + positional values'
  end.

(** The character [c] is a decimal digit with the value [v]: one of the
    digits [0-9], whose code points follow that of [0], or a digit of the
    table of the decimal digits beyond ASCII. *)
Inductive decimal_digit (env : Env) : N → Z → Prop :=
| ascii_digit (v : Z) :
    0 ≤ v ≤ 9 → decimal_digit env (Z.to_N (48 + v)) v
| unicode_digit (c : N) (v : Z) :
    (128 ≤ c)%N → unicode_decimal env c = Some v → decimal_digit env c v.

(** [ds] is a non-empty run of decimal digits with the values [values]. *)
Definition is_digits (env : Env) (ds : Text) (values : list Z) : Prop :=
  ds ≠ [] ∧ Forall2 (decimal_digit env) ds values.

(** [content] contains a marker referencing the image [z]. *)
Definition has_marker (env : Env) (content : Text) (z : Z) : Prop :=
  ∃ pre ds values post,
    content = pre ++ marker ds ++ post ∧ is_digits env ds values ∧
    positional values = z.

(** [content] contains a marker whose digit run [int()] refuses. *)
Definition has_long_marker (env : Env) (content : Text) : Prop :=
  ∃ pre ds values post,
    content = pre ++ marker ds ++ post ∧ is_digits env ds values ∧
    (int_max_str_digits < length ds)%nat.

(** Reachability, in the words of the specification: some text attribute
    of some instance of some registered model contains a marker referencing
    the image [z]. *)
Definition referenced (env : Env) (z : Z) : Prop :=
  ∃ model field instances instance content,
    model ∈ apps_models env ∧
    field ∈ model_fields model ∧ is_text_field field = true ∧
    model_objects model = Fetched instances ∧
    instance ∈ instances ∧
    instance !! field_name field = Some (AttrValue (PyStr content)) ∧
    has_marker env content z.

(** The loop body goes through for the attribute [name] of [instance]:
    reading it does not raise, and the text it holds has no marker whose
    digit run [int()] refuses. *)
Definition passes (env : Env) (name : string) (instance : Instance) : Prop :=
  match instance !! name with
  | Some (AttrRaises _) => False
  | Some (AttrValue (PyStr content)) => ¬ has_long_marker env content
  | Some (AttrValue PyNone) | None => True
  end.

(** Nothing raises during the scan: the instances of every model with a
    text field are fetched, and the loop body goes through for every text
    attribute of every instance. *)
Definition error_free (env : Env) : Prop :=
  ∀ model field,
    model ∈ apps_models env →
    field ∈ model_fields model →
    is_text_field field = true →
    ∃ instances, model_objects model = Fetched instances ∧
                 Forall (passes env (field_name field)) instances.

(** The value of the attribute [name] of [instance] is empty or missing:
    the attribute is not there, or it holds [None] or the empty string. *)
Definition empty_or_missing (name : string) (instance : Instance) : Prop :=
  instance !! name = None ∨
  instance !! name = Some (AttrValue PyNone) ∨
  instance !! name = Some (AttrValue (PyStr [])).

(** ** What the scan loop gathers, read off the catalog *)

(** What [getattr(instance, name, "")] evaluates to. *)
Definition read (name : string) (instance : Instance) : Attr :=
  default (AttrValue (PyStr [])) (instance !! name).

(** What [used_image_ids.update] adds for the groups of one text, and the
    exception it ends with, if any. *)
Fixpoint gathered_ints (env : Env) (groups : list Text)
  : gset Z * option Exception :=
  match groups with
  | [] => (∅, None)
  | ds :: rest =>
      if decide (int_max_str_digits < length ds)%nat
      then (∅, Some (int_error ds))
      else let '(ids, e) := gathered_ints env rest in
           ({[int_value env ds]} ∪ ids, e)
  end.

(** The same for one value. *)
Definition gathered_value (env : Env) (v : PyValue)
  : gset Z * option Exception :=
  if truthy v
  then gathered_ints env (Re.findall (unicode_decimal env) (str v))
  else (∅, None).

(** The same for one pass through the loop body. *)
Definition gathered_instance (env : Env) (name : string) (instance : Instance)
  : gset Z * option Exception :=
  match read name instance with
  | AttrValue v => gathered_value env v
  | AttrRaises e => (∅, Some e)
  end.

(** The same for the loop over the instances: it ends with the first pass
    that raises. *)
Fixpoint gathered_instances (env : Env) (name : string)
    (instances : list Instance) : gset Z * option Exception :=
  match instances with
  | [] => (∅, None)
  | instance :: rest =>
      match gathered_instance env name instance with
      | (ids, Some e) => (ids, Some e)
      | (ids, None) =>
          let '(ids', e) := gathered_instances env name rest in
          (ids ∪ ids', e)
      end
  end.

(** The same for the [try] block of one attribute of one model. *)
Definition gathered_field (env : Env) (model : Model) (field : Field)
  : gset Z * option Exception :=
  match model_objects model with
  | Fetched instances => gathered_instances env (field_name field) instances
  | FetchRaises e => (∅, Some e)
  end.

Definition text_fields (model : Model) : list Field :=
  List.filter is_text_field (model_fields model).

Definition field_ids (env : Env) (model : Model) (field : Field) : gset Z :=
  (gathered_field env model field).1.

Definition model_ids (env : Env) (model : Model) : gset Z :=
  ⋃ (field_ids env model <$> text_fields model).

(** The set [used_image_ids] holds when the scan loop is over. *)
Definition scanned_ids (env : Env) : gset Z :=
  ⋃ (model_ids env <$> apps_models env).

Definition error_line (model : Model) (field : Field) (e : Exception) : Line :=
  (WARNING, "Error checking " +:+ model_name model +:+ "." +:+
            field_name field +:+ ": " +:+ e).

Definition field_lines (env : Env) (model : Model) (field : Field)
  : list Line :=
  match (gathered_field env model field).2 with
  | Some e => [error_line model field e]
  | None => []
  end.

Definition model_lines (env : Env) (model : Model) : list Line :=
  match text_fields model with
  | [] => []
  | _ :: _ =>
      (PLAIN, "Checking " +:+ model_name model +:+ "...") ::
      concat (field_lines env model <$> text_fields model)
  end.

Definition model_counts (model : Model) : nat :=
  match text_fields model with
  | [] => 0
  | _ :: _ => 1
  end.

(** What the scan loop writes, and the number of models it checks. *)
Definition scan_lines (env : Env) (models : list Model) : list Line :=
  concat (model_lines env <$> models).

Definition checked_count (models : list Model) : nat :=
  foldr (λ model n, (model_counts model + n)%nat) 0%nat models.

(** The state after a stretch of the scan loop that gathered [ids], wrote
    [lines] and checked [n] models. *)
Definition after_scan (s : State) (ids : gset Z) (lines : list Line) (n : nat)
  : State :=
  {| world := world s;
     stdout := stdout s ++ lines;
     used_image_ids := used_image_ids s ∪ ids;
     models_checked := (models_checked s + n)%nat |}.

(** The query for the unused images does not raise. *)
Definition query_runs (env : Env) : Prop :=
  bind_error env (scanned_ids env) = None.

(** ** What the deletion loop does, read off the list of images *)

(** The exception [image.image.delete(save=False)] raises, if any. *)
Definition file_error (env : Env) (image : EditorImage.t) : option Exception :=
  if decide (EditorImage.image image = "") then None
  else storage_error env (EditorImage.image image).

(** Both deletions of [image] go through. *)
Definition deletable (env : Env) (image : EditorImage.t) : Prop :=
  file_error env image = None ∧ db_error env (EditorImage.id image) = None.

(** The world after [image.image.delete(save=False)] went through. *)
Definition unlink (image : EditorImage.t) (w : World) : World :=
  if decide (EditorImage.image image = "") then w
  else remove_file (EditorImage.image image) w.

(** The world after both deletions of [image] went through. *)
Definition deleted (image : EditorImage.t) (w : World) : World :=
  remove_row (EditorImage.id image) (unlink image w).

Definition deleted_all (images : list EditorImage.t) (w : World) : World :=
  foldl (λ w image, deleted image w) w images.

(** The world the deletion loop over [images] leaves and the exception it
    ends with, if any. *)
Fixpoint purge (env : Env) (images : list EditorImage.t) (w : World)
  : World * option Exception :=
  match images with
  | [] => (w, None)
  | image :: rest =>
      match file_error env image with
      | Some e => (w, Some e)
      | None =>
          match db_error env (EditorImage.id image) with
          | Some e => (unlink image w, Some e)
          | None => purge env rest (deleted image w)
          end
      end
  end.

(** The images the loop gets to: all of them up to and including the
    first one whose deletion raises. *)
Fixpoint attempted (env : Env) (images : list EditorImage.t)
  : list EditorImage.t :=
  match images with
  | [] => []
  | image :: rest =>
      match file_error env image, db_error env (EditorImage.id image) with
      | None, None => image :: attempted env rest
      | _, _ => [image]
      end
  end.

(** [s] with [lines] written after what it holds. *)
Definition say (s : State) (lines : list Line) : State :=
  {| world := world s; stdout := stdout s ++ lines;
     used_image_ids := used_image_ids s;
     models_checked := models_checked s |}.

(** [s] in another world. *)
Definition in_world (s : State) (w : World) : State :=
  {| world := w; stdout := stdout s;
     used_image_ids := used_image_ids s;
     models_checked := models_checked s |}.

(** The stored images in listing order. *)
Definition listing (w : World) : list EditorImage.t :=
  select objects_all (editor_images w).

(** The images a run finds unused, when its query runs. *)
Definition unused_images (env : Env) (w : World) : list EditorImage.t :=
  select (exclude_id_in (scanned_ids env) objects_all) (editor_images w).

(** What a run has written when the scan loop is over and the used ids
    are counted. *)
Definition header (env : Env) (w : World) : list Line :=
  [ (PLAIN, "Searching for models with text/HTML fields...");
    (PLAIN, "Found " +:+ pretty (length (listing w)) +:+ " uploaded images") ] ++
  scan_lines env (apps_models env) ++
  [ (PLAIN, "Checked " +:+ pretty (checked_count (apps_models env)) +:+ " models");
    (PLAIN, "Found " +:+ pretty (size (scanned_ids env)) +:+ " images in use") ].

(** The state of a run at that point. *)
Definition surveyed (env : Env) (w : World) : State :=
  {| world := w; stdout := header env w;
     used_image_ids := scanned_ids env;
     models_checked := checked_count (apps_models env) |}.

Definition found_unused_line (n : nat) : Line :=
  (PLAIN, "Found " +:+ pretty n +:+ " unused images").

Definition success_line (n : nat) : Line :=
  (SUCCESS, "Successfully deleted " +:+ pretty n +:+ " unused images").

(** The stored files of [images], as [image.image.delete] addresses them:
    the names that are not empty. *)
Definition file_names (images : list EditorImage.t) : gset string :=
  list_to_set (filter (λ name, name ≠ "") (EditorImage.image <$> images)).

(** ** Further notions used to state what the command does *)

(** Two instances hold the same in every text attribute of [fields]. *)
Definition same_text_values (fields : list Field) (i i' : Instance) : Prop :=
  ∀ field, field ∈ fields → is_text_field field = true →
           i !! field_name field = i' !! field_name field.

(** Iterating the instances of two models fails alike, or yields
    instances that hold the same in every text attribute. *)
Definition same_fetch (fields : list Field) (objects objects' : Fetch) : Prop :=
  match objects, objects' with
  | Fetched instances, Fetched instances' =>
      Forall2 (same_text_values fields) instances instances'
  | FetchRaises e, FetchRaises e' => e = e'
  | _, _ => False
  end.

(** Two models differ at most in what their instances hold in attributes
    that are no text fields. *)
Definition same_text_attributes (model model' : Model) : Prop :=
  model_name model = model_name model' ∧
  model_fields model = model_fields model' ∧
  same_fetch (model_fields model) (model_objects model) (model_objects model').

(** [env] with another list of registered models. *)
Definition with_models (env : Env) (models : list Model) : Env :=
  {| apps_models := models;
     unicode_decimal := unicode_decimal env;
     query_error := query_error env;
     storage_error := storage_error env;
     db_error := db_error env |}.

(** The line a run writes for the number of unused images it found. *)
Definition unused_report (n : nat) : Line :=
  if (n =? 0)%nat then (SUCCESS, "No unused images found!")
  else found_unused_line n.

Definition dry_run_line : Line :=
  (WARNING, "DRY RUN - No images will be deleted").

(** What a run writes after the count of unused images. *)
Definition closing_lines (env : Env) (dry_run : bool)
    (unused : list EditorImage.t) (w : World) : list Line :=
  match unused with
  | [] => []
  | _ :: _ =>
      if dry_run then
        dry_run_line :: ((λ image, (PLAIN, would_delete_line image)) <$> unused)
      else
        ((λ image, (PLAIN, deleting_line image)) <$> attempted env unused) ++
        match (purge env unused w).2 with
        | None => [success_line (length unused)]
        | Some _ => []
        end
  end.

(** The model has a [TextField] or a [CharField]. *)
Definition has_text_field (model : Model) : bool :=
  existsb is_text_field (model_fields model).

(** How a stretch of the scan that gathered [gathered.1] ends: normally,
    or with the exception [gathered.2]. *)
Definition outcome (gathered : gset Z * option Exception) (s : State)
  : Result unit :=
  match gathered.2 with
  | None => Ok tt (after_scan s gathered.1 [] 0)
  | Some e => Raise e (after_scan s gathered.1 [] 0)
  end.

(** A check that implies [error_free] on a catalog that is written out:
    every model with a text field is fetched, and every attribute of every
    instance is read without error and holds no text longer than
    [int_max_str_digits]. *)
Definition plain_attr (a : Attr) : bool :=
  match a with
  | AttrValue (PyStr content) => (length content <=? int_max_str_digits)%nat
  | AttrValue PyNone => true
  | AttrRaises _ => false
  end.

Definition plain_instance (instance : Instance) : bool :=
  forallb (λ entry, plain_attr entry.2) (map_to_list instance).

Definition plain_model (model : Model) : bool :=
  match model_objects model with
  | Fetched instances => forallb plain_instance instances
  | FetchRaises _ => negb (has_text_field model)
  end.

(** The loop over the instances of [model] for the attribute of [field],
    entered in [s], raises [e] in [s']: iterating the instances raises, or
    the loop body raises at some instance after it went through for the
    instances listed before. *)
Definition loop_raises (env : Env) (model : Model) (field : Field)
    (s : State) (e : Exception) (s' : State) : Prop :=
  (model_objects model = FetchRaises e ∧ s' = s) ∨
  (∃ before instance after s1,
     model_objects model = Fetched (before ++ instance :: after) ∧
     for_each before (scan_instance env field) s = Ok tt s1 ∧
     scan_instance env field instance s1 = Raise e s').

(** ** Sample worlds *)

Module Examples.

Definition image1 : EditorImage.t :=
  EditorImage.Build 1 "editor_uploads/one.jpg" 100.
Definition image2 : EditorImage.t :=
  EditorImage.Build 2 "editor_uploads/two.jpg" 200.
Definition image3 : EditorImage.t :=
  EditorImage.Build 3 "editor_uploads/three.jpg" 300.

Definition store (images : list EditorImage.t) : World :=
  {| editor_images := images;
     media := list_to_set (EditorImage.image <$> images) |}.

(** The example project's [BlogPost], as far as the scan sees it. *)
Definition blog_fields : list Field :=
  [ {| field_name := "title"; field_class := CharField |};
    {| field_name := "content"; field_class := TextField |};
    {| field_name := "author"; field_class := OtherField |};
    {| field_name := "published"; field_class := OtherField |} ].

Definition content_field : Field :=
  {| field_name := "content"; field_class := TextField |}.

Definition BlogPost (objects : list Instance) : Model :=
  {| model_name := "BlogPost"; model_fields := blog_fields;
     model_objects := Fetched objects |}.

(** The same model when its rows cannot be fetched. *)
Definition BlogPost_unreadable (e : Exception) : Model :=
  {| model_name := "BlogPost"; model_fields := blog_fields;
     model_objects := FetchRaises e |}.

Definition post (title : string) (content : Text) : Instance :=
  {[ "title" := AttrValue (PyStr (text title));
     "content" := AttrValue (PyStr content) ]}.

(** A post whose [content] cannot be read. *)
Definition broken_post (title : string) : Instance :=
  {[ "title" := AttrValue (PyStr (text title));
     "content" := AttrRaises "invalid continuation byte" ]}.

(** A post without a body. *)
Definition empty_post (title : string) : Instance :=
  {[ "title" := AttrValue (PyStr (text title));
     "content" := AttrValue (PyStr []) ]}.

Definition img_tag (digits : string) : Text :=
  text "<p><img src=x " ++ marker (text digits) ++ text "></p>".

(** A marker with a run of 4301 digits. *)
Definition long_marker : Text := marker (replicate 4301 49%N).

(** Three of the rows of the table of decimal digits beyond ASCII:
    Arabic-Indic, Devanagari and fullwidth digits. *)
Definition some_decimals (c : N) : option Z :=
  if ((1632 <=? c) && (c <=? 1641))%N then Some (Z.of_N c - 1632)
  else if ((2406 <=? c) && (c <=? 2415))%N then Some (Z.of_N c - 2406)
  else if ((65296 <=? c) && (c <=? 65305))%N then Some (Z.of_N c - 65296)
  else None.

(** SQLite binds integers of 64 bits: a larger parameter raises
    [OverflowError]. *)
Definition sqlite_query_error (ids : gset Z) : option Exception :=
  if decide (set_Exists (λ z, 2 ^ 63 ≤ z) ids)
  then Some "Python int too large to convert to SQLite INTEGER"
  else None.

(** An environment in which no deletion fails. *)
Definition sound (models : list Model) : Env :=
  {| apps_models := models;
     unicode_decimal := some_decimals;
     query_error := sqlite_query_error;
     storage_error := λ _, None;
     db_error := λ _, None |}.

(** An environment in which the file of [image2] cannot be removed. *)
Definition read_only (models : list Model) : Env :=
  {| apps_models := models;
     unicode_decimal := some_decimals;
     query_error := sqlite_query_error;
     storage_error := λ name,
       if decide (name = "editor_uploads/two.jpg")
       then Some "Permission denied" else None;
     db_error := λ _, None |}.

End Examples.

Module MoreExamples.

(** A post with a further attribute that is no text field. *)
Definition post_by (author : string) (title : string) (content : Text)
  : Instance :=
  <[ "author" := AttrValue (PyStr (text author)) ]> (Examples.post title content).

(** A model without any text field, whose rows cannot be fetched. *)
Definition Vote : Model :=
  {| model_name := "Vote";
     model_fields := [ {| field_name := "value"; field_class := OtherField |} ];
     model_objects := FetchRaises "no such table: blog_vote" |}.

(** Two rows that name the same file. *)
Definition shared1 : EditorImage.t := EditorImage.Build 1 "editor_uploads/s.jpg" 100.
Definition shared2 : EditorImage.t := EditorImage.Build 2 "editor_uploads/s.jpg" 200.

(** The id 2^63, written out. *)
Definition huge : string := "9223372036854775808".

End MoreExamples.

(** ** Two facts on [filter] *)

Section FilterFacts.

Context {A : Type} (P : A → Prop) `{!∀ x, Decision (P x)}.

Lemma filter_all (l : list A) : Forall P l → filter P l = l.
Proof.
  induction 1 as [|x l Hx _ IH]; [done |].
  by rewrite filter_cons_True, IH.
Qed.


End FilterFacts.

Lemma filter_ext_elem {A : Type} (P Q : A → Prop)
    `{!∀ x, Decision (P x), !∀ x, Decision (Q x)} (l : list A) :
  (∀ x, x ∈ l → P x ↔ Q x) → filter P l = filter Q l.
Proof.
  induction l as [|x l IH]; intros Hext; [done |].
  rewrite !filter_cons, IH.
  - apply decide_ext, Hext, elem_of_cons. by left.
  - intros y Hy. apply Hext, elem_of_cons. by right.
Qed.

Lemma no_elem_nil {A : Type} (l : list A) : (∀ x, x ∉ l) → l = [].
Proof.
  destruct l as [|x l]; [done |].
  intros Hno. destruct (Hno x). apply elem_of_cons. by left.
Qed.

Lemma elem_of_concat {A : Type} (x : A) (ls : list (list A)) :
  x ∈ concat ls ↔ ∃ l, l ∈ ls ∧ x ∈ l.
Proof.
  induction ls as [|l ls IH]; simpl.
  - split; [by intros ?%elem_of_nil | by intros (? & ?%elem_of_nil & _)].
  - rewrite elem_of_app, IH. setoid_rewrite elem_of_cons. naive_solver.
Qed.

(** ** Facts about the pattern matcher *)

Section ReFacts.

Import Re.

Variable nd : N → option Z.

Local Arguments MARKER_OPEN : simpl never.

Local Abbreviation digits := (Forall (λ c, is_digit nd c = true)).

Lemma marker_app (ds post : Text) :
  marker ds ++ post = MARKER_OPEN ++ ds ++ QUOTE :: post.
Proof. unfold marker, MARKER_OPEN, QUOTE. by rewrite <- !app_assoc. Qed.

Lemma is_digit_decimal (c : N) :
  is_digit nd c = true ↔ ∃ v, decimal nd c = Some v.
Proof.
  unfold is_digit. destruct (decimal nd c) as [v|].
  - split; [by exists v | done].
  - split; [done | by intros [v ?]].
Qed.

Lemma digits_values (ds : Text) :
  digits ds ↔ ∃ values, Forall2 (λ c v, decimal nd c = Some v) ds values.
Proof.
  induction ds as [|c ds IH].
  - split; [by exists [] | constructor].
  - rewrite Forall_cons, IH, is_digit_decimal. split.
    + intros [[v Hv] [values Hvalues]]. exists (v :: values). by constructor.
    + intros [values Hvalues].
      apply Forall2_cons_inv_l in Hvalues as (v & values' & Hv & Hrest & _).
      split; [by exists v | by exists values'].
Qed.

Lemma strip_prefix_Some (p s body : Text) :
  strip_prefix p s = Some body ↔ s = p ++ body.
Proof.
  revert s. induction p as [|a p IH]; intros [|b s]; simpl;
    try (split; congruence).
  destruct (N.eqb_spec a b) as [->|Hne].
  - rewrite IH. split; congruence.
  - split; congruence.
Qed.

Lemma span_digits_spec (s ds rest : Text) :
  span_digits nd s = (ds, rest) →
  s = ds ++ rest ∧ digits ds ∧
  (∀ c rest', rest = c :: rest' → is_digit nd c = false).
Proof.
  revert ds rest. induction s as [|c s IH]; intros ds rest; simpl.
  - intros [= <- <-]. split_and!; [done | constructor | done].
  - destruct (is_digit nd c) eqn:Hc.
    + destruct (span_digits nd s) as [ds' rest'] eqn:Hs.
      intros [= <- <-]. destruct (IH _ _ eq_refl) as (-> & Hds & Hrest).
      split_and!; [done | by constructor | done].
    + intros [= <- <-]. split_and!; [done | constructor |].
      by intros c' rest' [= <- <-].
Qed.

(** The greedy run is determined by where the digits stop. *)
Lemma span_digits_app (ds rest : Text) :
  digits ds →
  (∀ c rest', rest = c :: rest' → is_digit nd c = false) →
  span_digits nd (ds ++ rest) = (ds, rest).
Proof.
  intros Hds Hrest. induction Hds as [|c ds Hc _ IH]; simpl.
  - destruct rest as [|c rest']; simpl; [done |].
    by rewrite (Hrest c rest' eq_refl).
  - by rewrite Hc, IH.
Qed.

Lemma match_at_Some (s ds tail : Text) :
  match_at nd s = Some (ds, tail) ↔
  s = MARKER_OPEN ++ ds ++ QUOTE :: tail ∧ ds ≠ [] ∧ digits ds.
Proof.
  unfold match_at. split.
  - destruct (strip_prefix MARKER_OPEN s) as [body|] eqn:Hp; [|done].
    apply strip_prefix_Some in Hp as ->.
    destruct (span_digits nd body) as [ds' rest] eqn:Hs.
    apply span_digits_spec in Hs as (-> & Hds & _).
    destruct ds' as [|d ds']; [done |].
    destruct rest as [|q rest]; [done |].
    destruct (N.eqb_spec q QUOTE) as [->|]; [|done].
    intros [= <- <-]. done.
  - intros (-> & Hne & Hds).
    assert (strip_prefix MARKER_OPEN (MARKER_OPEN ++ ds ++ QUOTE :: tail)
            = Some (ds ++ QUOTE :: tail)) as -> by by apply strip_prefix_Some.
    rewrite span_digits_app; [| done | by intros c r [= <- <-]].
    destruct ds; [done |]. by rewrite N.eqb_refl.
Qed.

(** A later occurrence of the literal cannot begin inside the literal of
    an earlier match. *)
Lemma marker_open_no_overlap (pre body rest : Text) :
  pre ≠ [] →
  MARKER_OPEN ++ body = pre ++ MARKER_OPEN ++ rest →
  ∃ k, body = k ++ MARKER_OPEN ++ rest.
Proof.
  intros Hpre. unfold MARKER_OPEN. simpl.
  destruct pre as [|c0 pre]; [done |]. clear Hpre.
  do 14 (destruct pre as [|? pre]; [simpl; intros H; discriminate H |]).
  simpl. intros H. exists pre. by simplify_eq.
Qed.

(** Nor inside its digits or on its closing quote: a match that starts
    before an occurrence of the literal ends before it. *)
Lemma match_at_before (s pre rest ds tail : Text) :
  pre ≠ [] →
  s = pre ++ MARKER_OPEN ++ rest →
  match_at nd s = Some (ds, tail) →
  ∃ k, tail = k ++ MARKER_OPEN ++ rest.
Proof.
  intros Hpre -> Hm. apply match_at_Some in Hm as (Hs & _ & Hds).
  symmetry in Hs.
  apply marker_open_no_overlap in Hs as [k Hk]; [|done].
  destruct (span_digits nd k) as [dk rk] eqn:Hspan.
  apply span_digits_spec in Hspan as (-> & Hdk & Hrk).
  assert (span_digits nd (ds ++ QUOTE :: tail) = (ds, QUOTE :: tail)) as H1.
  { apply span_digits_app; [done |]. by intros c r [= <- <-]. }
  rewrite Hk in H1. rewrite <- app_assoc in H1.
  rewrite span_digits_app in H1; [| done |].
  - injection H1 as -> H1. destruct rk as [|c rk].
    + simpl in H1. unfold MARKER_OPEN in H1. simpl in H1. discriminate H1.
    + simpl in H1. injection H1 as -> <-. by exists rk.
  - intros c r. destruct rk as [|c' rk]; simpl.
    + unfold MARKER_OPEN. simpl. by intros [= <- <-].
    + intros [= <- <-]. by apply (Hrk c' rk).
Qed.

(** A match is a match whatever follows it. *)
Lemma match_at_app (s r ds tail : Text) :
  match_at nd s = Some (ds, tail) →
  match_at nd (s ++ r) = Some (ds, tail ++ r).
Proof.
  intros (-> & Hne & Hds)%match_at_Some. apply match_at_Some.
  split; [|done]. by rewrite <- !app_assoc, <- app_comm_cons.
Qed.

(** A match that starts before an occurrence of the literal is a match of
    the text before that occurrence. *)
Lemma match_at_prefix (pre rest ds tail' : Text) :
  pre ≠ [] →
  match_at nd (pre ++ MARKER_OPEN ++ rest) = Some (ds, tail') →
  ∃ tail, match_at nd pre = Some (ds, tail) ∧
          tail' = tail ++ MARKER_OPEN ++ rest.
Proof.
  intros Hpre Hm.
  destruct (match_at_before _ pre rest ds tail' Hpre eq_refl Hm) as [k ->].
  exists k. split; [|done]. apply match_at_Some in Hm as (Hs & Hne & Hds).
  apply match_at_Some. split; [|done].
  apply (app_inv_tail (MARKER_OPEN ++ rest)).
  rewrite Hs. by rewrite <- !app_assoc, <- app_comm_cons.
Qed.

(** Every group [findall] returns was captured at an occurrence of a
    marker. *)
Lemma findall_from_sound (fuel : nat) (s ds : Text) :
  ds ∈ findall_from nd fuel s →
  ∃ pre post, s = pre ++ MARKER_OPEN ++ ds ++ QUOTE :: post ∧ ds ≠ [] ∧
              digits ds.
Proof.
  revert s. induction fuel as [|fuel IH]; intros s; simpl.
  - by intros ?%elem_of_nil.
  - destruct s as [|c s']; [by intros ?%elem_of_nil |].
    destruct (match_at nd (c :: s')) as [[ds' tail]|] eqn:Hm.
    + apply match_at_Some in Hm as (Hs & Hne & Hds).
      intros [->|Hin]%elem_of_cons.
      * exists [], tail. by rewrite Hs.
      * destruct (IH _ Hin) as (pre & post & -> & ? & ?).
        exists (MARKER_OPEN ++ ds' ++ QUOTE :: pre), post.
        split; [|done]. rewrite Hs.
        by rewrite <- ?app_assoc, <- ?app_comm_cons, <- ?app_assoc.
    + intros Hin. destruct (IH _ Hin) as (pre & post & -> & ? & ?).
      by exists (c :: pre), post.
Qed.

(** The fuel [findall] starts with is enough: with more of it the result
    is the same. *)
Lemma findall_from_enough (fuel fuel' : nat) (s : Text) :
  (length s ≤ fuel)%nat → (length s ≤ fuel')%nat →
  findall_from nd fuel s = findall_from nd fuel' s.
Proof.
  revert fuel' s. induction fuel as [|fuel IH]; intros fuel' s Hlen Hlen'.
  - destruct s; [|simpl in Hlen; lia]. by destruct fuel'.
  - destruct s as [|c s']; [by destruct fuel' |].
    destruct fuel' as [|fuel']; [simpl in Hlen'; lia |].
    simpl in Hlen, Hlen'. cbn [findall_from].
    destruct (match_at nd (c :: s')) as [[ds tail]|] eqn:Hm.
    + apply match_at_Some in Hm as (Hs & _ & _).
      apply (f_equal length) in Hs. rewrite !length_app in Hs. simpl in Hs.
      f_equal. apply IH; lia.
    + apply IH; lia.
Qed.

Lemma findall_from_findall (fuel : nat) (s : Text) :
  (length s ≤ fuel)%nat → findall_from nd fuel s = findall nd s.
Proof. intros Hlen. unfold findall. by apply findall_from_enough. Qed.

(** [findall] step by step. *)
Lemma findall_nil : findall nd [] = [].
Proof. done. Qed.

Lemma findall_cons (c : N) (s : Text) :
  findall nd (c :: s) =
  match match_at nd (c :: s) with
  | Some (ds, tail) => ds :: findall nd tail
  | None => findall nd s
  end.
Proof.
  unfold findall at 1. cbn [length findall_from].
  destruct (match_at nd (c :: s)) as [[ds tail]|] eqn:Hm.
  - f_equal. apply findall_from_findall.
    apply match_at_Some in Hm as (Hs & _ & _).
    apply (f_equal length) in Hs. rewrite !length_app in Hs. simpl in Hs. lia.
  - by apply findall_from_findall.
Qed.

(** The groups of a text that holds a marker: those of the text before
    the marker, the digits of the marker, those of the text after it. *)
Lemma findall_marker (pre ds post : Text) :
  ds ≠ [] → digits ds →
  findall nd (pre ++ marker ds ++ post) =
  findall nd pre ++ ds :: findall nd post.
Proof.
  intros Hne Hds. rewrite marker_app.
  remember (length pre) as m eqn:Hm. revert pre Hm.
  induction (lt_wf m) as [m _ IH]. intros pre Hm.
  destruct pre as [|c pre'].
  - rewrite app_nil_l, findall_nil, app_nil_l.
    assert (match_at nd (MARKER_OPEN ++ ds ++ QUOTE :: post) = Some (ds, post))
      as Hmatch by by apply match_at_Some.
    destruct (MARKER_OPEN ++ ds ++ QUOTE :: post) as [|c s] eqn:Hs;
      [by destruct ds | ].
    by rewrite findall_cons, Hmatch.
  - rewrite <- app_comm_cons, !findall_cons.
    destruct (match_at nd (c :: pre' ++ MARKER_OPEN ++ ds ++ QUOTE :: post))
      as [[ds' tail']|] eqn:Hfull.
    + rewrite app_comm_cons in Hfull.
      apply match_at_prefix in Hfull as (tail & Hpre & ->); [|done].
      rewrite Hpre. rewrite <- app_comm_cons. f_equal.
      apply (IH (length tail)); [|done].
      apply match_at_Some in Hpre as (Hs & _ & _).
      apply (f_equal length) in Hs. rewrite !length_app in Hs.
      simpl in Hs. simpl in Hm. lia.
    + destruct (match_at nd (c :: pre')) as [[ds' tail]|] eqn:Hpre.
      * apply (match_at_app _ (MARKER_OPEN ++ ds ++ QUOTE :: post)) in Hpre.
        rewrite <- app_comm_cons in Hpre. congruence.
      * apply (IH (length pre')); [simpl in Hm; lia | done].
Qed.

End ReFacts.

(** ** The scan loop *)

Section ScanFacts.

Variable env : Env.

Lemma after_scan_id (s : State) : after_scan s ∅ [] 0 = s.
Proof.
  destruct s. unfold after_scan. simpl.
  by rewrite app_nil_r, Nat.add_0_r, (right_id_L ∅ (∪)).
Qed.

Lemma after_scan_twice (s : State) ids1 lines1 n1 ids2 lines2 n2 :
  after_scan (after_scan s ids1 lines1 n1) ids2 lines2 n2 =
  after_scan s (ids1 ∪ ids2) (lines1 ++ lines2) (n1 + n2).
Proof.
  unfold after_scan. simpl.
  by rewrite app_assoc, Nat.add_assoc, (assoc_L (∪)).
Qed.

Lemma for_each_cons {A} (x : A) (xs : list A) (body : A → Cmd unit)
    (s : State) :
  for_each (x :: xs) body s =
  match body x s with
  | Ok _ s' => for_each xs body s'
  | Raise e s' => Raise e s'
  end.
Proof. done. Qed.

Lemma update_step (ds : Text) (s : State) :
  (z ← int env ds; used_image_ids_add z) s =
  if decide (int_max_str_digits < length ds)%nat then Raise (int_error ds) s
  else Ok tt (after_scan s {[int_value env ds]} [] 0).
Proof.
  unfold mbind, Cmd_bind, int.
  destruct (decide (int_max_str_digits < length ds)%nat); [done |].
  unfold mret, Cmd_ret, used_image_ids_add, modify, after_scan.
  by rewrite app_nil_r, Nat.add_0_r.
Qed.

Lemma used_image_ids_update_spec (groups : list Text) (s : State) :
  used_image_ids_update env groups s = outcome (gathered_ints env groups) s.
Proof.
  unfold used_image_ids_update, outcome. revert s.
  induction groups as [|ds rest IH]; intros s.
  - simpl. by rewrite after_scan_id.
  - rewrite for_each_cons. cbv beta. rewrite update_step. cbn [gathered_ints].
    destruct (decide (int_max_str_digits < length ds)%nat) as [Hlong|Hshort].
    + simpl. by rewrite after_scan_id.
    + rewrite IH. destruct (gathered_ints env rest) as [ids [e|]]; simpl;
        by rewrite after_scan_twice.
Qed.

Lemma scan_instance_spec (field : Field) (instance : Instance) (s : State) :
  scan_instance env field instance s =
  outcome (gathered_instance env (field_name field) instance) s.
Proof.
  unfold scan_instance, getattr, gathered_instance, read, gathered_value.
  unfold mbind, Cmd_bind.
  destruct (instance !! field_name field) as [[v|e]|]; simpl.
  - unfold mret, Cmd_ret. destruct (truthy v); simpl.
    + apply used_image_ids_update_spec.
    + unfold outcome. simpl. by rewrite after_scan_id.
  - unfold outcome, raise. simpl. by rewrite after_scan_id.
  - unfold outcome, mret, Cmd_ret. simpl. by rewrite after_scan_id.
Qed.

(** The loop over the instances of one attribute: it gathers ids until a
    pass through its body raises, and ends with that exception if there is
    one. *)
Lemma scan_instances (field : Field) (instances : list Instance) (s : State) :
  for_each instances (scan_instance env field) s =
  outcome (gathered_instances env (field_name field) instances) s.
Proof.
  revert s. induction instances as [|instance rest IH]; intros s; simpl.
  - unfold outcome. simpl. by rewrite after_scan_id.
  - unfold mbind, Cmd_bind. rewrite scan_instance_spec. unfold outcome at 1.
    destruct (gathered_instance env (field_name field) instance)
      as [ids [e|]]; simpl; [done |].
    rewrite IH. unfold outcome.
    destruct (gathered_instances env (field_name field) rest) as [ids' [e|]];
      simpl; by rewrite after_scan_twice.
Qed.

Lemma scan_field_spec (model : Model) (field : Field) (s : State) :
  scan_field env model field s =
  Ok tt (after_scan s (field_ids env model field)
                      (field_lines env model field) 0).
Proof.
  unfold scan_field, try_except, field_ids, field_lines, gathered_field, iterate.
  unfold mbind, Cmd_bind.
  destruct (model_objects model) as [instances|e]; simpl.
  - unfold mret, Cmd_ret. rewrite scan_instances. unfold outcome.
    destruct (gathered_instances env (field_name field) instances)
      as [ids [e|]]; simpl; [|done].
    unfold write, modify, after_scan, error_line. simpl.
    by rewrite app_nil_r, !Nat.add_0_r.
  - unfold raise, write, modify, after_scan, error_line. simpl.
    by rewrite Nat.add_0_r, (right_id_L ∅ (∪)).
Qed.

Lemma scan_fields (model : Model) (fields : list Field) (s : State) :
  for_each fields (scan_field env model) s =
  Ok tt (after_scan s (⋃ (field_ids env model <$> fields))
                      (concat (field_lines env model <$> fields)) 0).
Proof.
  revert s. induction fields as [|field rest IH]; intros s; simpl.
  - by rewrite after_scan_id.
  - unfold mbind, Cmd_bind. rewrite scan_field_spec, IH.
    by rewrite after_scan_twice.
Qed.

Lemma scan_model_spec (model : Model) (s : State) :
  scan_model env model s =
  Ok tt (after_scan s (model_ids env model) (model_lines env model)
                      (model_counts model)).
Proof.
  unfold scan_model, model_ids, model_lines, model_counts.
  fold (text_fields model).
  destruct (text_fields model) as [|field rest] eqn:Hfields.
  - unfold mret, Cmd_ret. by rewrite after_scan_id.
  - unfold mbind, Cmd_bind, get, set_models_checked, write, modify.
    rewrite scan_fields. unfold after_scan. simpl.
    by rewrite Nat.add_0_r, <- app_assoc.
Qed.

Lemma scan_models (models : list Model) (s : State) :
  for_each models (scan_model env) s =
  Ok tt (after_scan s (⋃ (model_ids env <$> models)) (scan_lines env models)
                      (checked_count models)).
Proof.
  revert s. induction models as [|model rest IH]; intros s; simpl.
  - by rewrite after_scan_id.
  - unfold mbind, Cmd_bind. rewrite scan_model_spec, IH.
    by rewrite after_scan_twice.
Qed.

End ScanFacts.

(** ** The deletion loop and the whole command *)

Section DeleteFacts.

Variable env : Env.

Lemma say_nil (s : State) : say s [] = s.
Proof. destruct s. unfold say. simpl. by rewrite app_nil_r. Qed.

Lemma say_say (s : State) (l1 l2 : list Line) :
  say (say s l1) l2 = say s (l1 ++ l2).
Proof. unfold say. simpl. by rewrite app_assoc. Qed.

Lemma delete_image_spec (image : EditorImage.t) (s : State) :
  delete_image env image s =
  let s1 := say s [(PLAIN, deleting_line image)] in
  match file_error env image with
  | Some e => Raise e s1
  | None =>
      match db_error env (EditorImage.id image) with
      | Some e => Raise e (in_world s1 (unlink image (world s)))
      | None => Ok tt (in_world s1 (deleted image (world s)))
      end
  end.
Proof.
  unfold delete_image, FieldFile_delete, Model_delete, storage_delete,
    file_error, deleted, unlink.
  unfold mbind, Cmd_bind, write, modify, get, set_world, raise, mret, Cmd_ret.
  simpl. destruct (decide (EditorImage.image image = "")) as [Hname|Hname].
  - destruct (db_error env (EditorImage.id image)); simpl; [done |].
    by destruct s.
  - destruct (storage_error env (EditorImage.image image)); simpl; [done |].
    by destruct (db_error env (EditorImage.id image)).
Qed.

(** The deletion loop, in full. *)
Lemma delete_loop_spec (images : list EditorImage.t) (s : State) :
  for_each images (delete_image env) s =
  let s' := in_world (say s ((λ image, (PLAIN, deleting_line image)) <$>
                             attempted env images))
                     (purge env images (world s)).1 in
  match (purge env images (world s)).2 with
  | None => Ok tt s'
  | Some e => Raise e s'
  end.
Proof.
  revert s. induction images as [|image rest IH]; intros s; simpl.
  - unfold mret, Cmd_ret. destruct s. unfold in_world, say. simpl.
    by rewrite app_nil_r.
  - unfold mbind, Cmd_bind. rewrite delete_image_spec. simpl.
    destruct (file_error env image) as [e|]; simpl; [done |].
    destruct (db_error env (EditorImage.id image)) as [e|]; simpl; [done |].
    rewrite IH. simpl. unfold in_world, say. simpl.
    by rewrite <- app_assoc.
Qed.

Lemma would_delete_loop (images : list EditorImage.t) (s : State) :
  for_each images (λ image, write PLAIN (would_delete_line image)) s =
  Ok tt (say s ((λ image, (PLAIN, would_delete_line image)) <$> images)).
Proof.
  revert s. induction images as [|image rest IH]; intros s; simpl.
  - by rewrite say_nil.
  - unfold mbind, Cmd_bind. unfold write at 1. unfold modify.
    rewrite IH. unfold say. simpl. by rewrite <- app_assoc.
Qed.

Lemma bind_error_empty : bind_error env ∅ = None.
Proof. unfold bind_error. by rewrite decide_True. Qed.

(** [handle], with the scan loop summed up. *)
Lemma scan_unfold (dry_run : bool) (w : World) :
  scan env dry_run w =
  let unused := unused_images env w in
  let s1 := surveyed env w in
  match bind_error env (scanned_ids env) with
  | Some e => Raise e s1
  | None =>
      if (length unused =? 0)%nat then
        Ok tt (say s1 [(SUCCESS, "No unused images found!")])
      else
        let s2 := say s1 [found_unused_line (length unused)] in
        if dry_run then
          Ok tt (say s2 ((WARNING, "DRY RUN - No images will be deleted") ::
                         ((λ image, (PLAIN, would_delete_line image)) <$> unused)))
        else
          match for_each unused (delete_image env) s2 with
          | Ok _ s3 => Ok tt (say s3 [success_line (length unused)])
          | Raise e s3 => Raise e s3
          end
  end.
Proof.
  unfold scan, handle.
  unfold mbind, Cmd_bind, write, count, fetch, get, set_used_image_ids,
    set_models_checked, modify, mret, Cmd_ret. cbn [bound objects_all].
  rewrite bind_error_empty. unfold mbind, Cmd_bind. simpl.
  rewrite scan_models. simpl.
  rewrite !(left_id_L ∅ (∪)).
  fold (scanned_ids env).
  unfold unused_images, listing, surveyed, header, say, found_unused_line,
    success_line, raise. simpl.
  rewrite <- !app_assoc. simpl.
  destruct (bind_error env (scanned_ids env)) as [e|]; [done |].
  simpl.
  destruct (length _ =? 0)%nat eqn:Hcount.
  - simpl. by rewrite <- ?app_assoc.
  - destruct dry_run.
    + rewrite would_delete_loop. unfold say. simpl.
      by rewrite <- ?app_assoc.
    + simpl. rewrite <- ?app_assoc. simpl.
      by destruct (for_each _ _ _).
Qed.

End DeleteFacts.

(** ** The world after the deletion loop *)

Section WorldFacts.

Variable env : Env.

Lemma objects_all_elem (image : EditorImage.t) (rows : list EditorImage.t) :
  image ∈ select objects_all rows ↔ image ∈ rows.
Proof. unfold objects_all. simpl. by rewrite merge_sort_Permutation. Qed.

Lemma listing_elem (image : EditorImage.t) (w : World) :
  image ∈ listing w ↔ image ∈ editor_images w.
Proof. apply objects_all_elem. Qed.

Lemma unused_images_listing (w : World) :
  unused_images env w =
  filter (λ image, EditorImage.id image ∉ scanned_ids env) (listing w).
Proof. done. Qed.

Lemma unused_images_elem (image : EditorImage.t) (w : World) :
  image ∈ unused_images env w ↔
  image ∈ editor_images w ∧ EditorImage.id image ∉ scanned_ids env.
Proof.
  rewrite unused_images_listing, list_elem_of_filter, listing_elem. tauto.
Qed.

Lemma deleted_rows (image : EditorImage.t) (w : World) :
  editor_images (deleted image w) =
  filter (λ row, EditorImage.id row ≠ EditorImage.id image) (editor_images w).
Proof. unfold deleted, unlink. by destruct (decide _). Qed.

Lemma elem_of_file_names (name : string) (images : list EditorImage.t) :
  name ∈ file_names images ↔
  name ≠ "" ∧ ∃ image, image ∈ images ∧ EditorImage.image image = name.
Proof.
  unfold file_names.
  rewrite elem_of_list_to_set, list_elem_of_filter, list_elem_of_fmap.
  naive_solver.
Qed.

Lemma file_names_nil : file_names [] = ∅.
Proof. done. Qed.

Lemma file_names_cons (image : EditorImage.t) (images : list EditorImage.t) :
  file_names (image :: images) = file_names [image] ∪ file_names images.
Proof.
  apply set_eq. intros name.
  rewrite elem_of_union, !elem_of_file_names.
  setoid_rewrite elem_of_cons. setoid_rewrite elem_of_nil. naive_solver.
Qed.

Lemma file_names_app (l1 l2 : list EditorImage.t) :
  file_names (l1 ++ l2) = file_names l1 ∪ file_names l2.
Proof.
  apply set_eq. intros name.
  rewrite elem_of_union, !elem_of_file_names.
  setoid_rewrite elem_of_app. naive_solver.
Qed.

Lemma deleted_media (image : EditorImage.t) (w : World) :
  media (deleted image w) = media w ∖ file_names [image].
Proof.
  unfold deleted, unlink. apply set_eq. intros name.
  rewrite elem_of_difference, elem_of_file_names.
  setoid_rewrite elem_of_cons. setoid_rewrite elem_of_nil.
  destruct (decide (EditorImage.image image = "")) as [Hn|Hn]; simpl.
  - naive_solver.
  - rewrite elem_of_difference, elem_of_singleton. naive_solver.
Qed.

(** The deletion of a list of images removes the rows that bear their
    ids and the files that bear their names, and nothing else. *)
Lemma deleted_all_rows (images : list EditorImage.t) (w : World) :
  editor_images (deleted_all images w) =
  filter (λ row, EditorImage.id row ∉ EditorImage.id <$> images)
         (editor_images w).
Proof.
  unfold deleted_all. revert w.
  induction images as [|image rest IH]; intros w; simpl.
  - symmetry. apply filter_all, Forall_forall. intros row _.
    apply not_elem_of_nil.
  - rewrite IH, deleted_rows, list_filter_filter.
    apply list_filter_iff. intros row. rewrite not_elem_of_cons. tauto.
Qed.

Lemma deleted_all_media (images : list EditorImage.t) (w : World) :
  media (deleted_all images w) = media w ∖ file_names images.
Proof.
  unfold deleted_all. revert w.
  induction images as [|image rest IH]; intros w; simpl.
  - rewrite file_names_nil. set_solver.
  - rewrite IH, deleted_media, (file_names_cons image rest). set_solver.
Qed.

Lemma deleted_all_app (l1 l2 : list EditorImage.t) (w : World) :
  deleted_all (l1 ++ l2) w = deleted_all l2 (deleted_all l1 w).
Proof. unfold deleted_all. by rewrite foldl_app. Qed.

Lemma purge_deletable (images : list EditorImage.t) (w : World) :
  Forall (deletable env) images →
  purge env images w = (deleted_all images w, None) ∧
  attempted env images = images.
Proof.
  intros Hall. revert w.
  induction Hall as [|image rest [Hfile Hdb] _ IH]; intros w; simpl; [done |].
  rewrite Hfile, Hdb. destruct (IH (deleted image w)) as [-> ->]. done.
Qed.

Lemma purge_returns (images : list EditorImage.t) (w : World) :
  (purge env images w).2 = None → Forall (deletable env) images.
Proof.
  revert w. induction images as [|image rest IH]; intros w; simpl.
  - constructor.
  - destruct (file_error env image) as [e|] eqn:Hfile; [done |].
    destruct (db_error env (EditorImage.id image)) as [e|] eqn:Hdb; [done |].
    intros H. constructor; [done | by eapply IH].
Qed.

(** Where the loop stops: at the first image whose deletion raises. *)
Lemma purge_stops (before after : list EditorImage.t)
    (image : EditorImage.t) (w : World) :
  Forall (deletable env) before →
  ¬ deletable env image →
  attempted env (before ++ image :: after) = before ++ [image] ∧
  match file_error env image with
  | Some e =>
      purge env (before ++ image :: after) w =
      (deleted_all before w, Some e)
  | None =>
      ∃ e, db_error env (EditorImage.id image) = Some e ∧
           purge env (before ++ image :: after) w =
           (unlink image (deleted_all before w), Some e)
  end.
Proof.
  intros Hall Hbad. revert w.
  induction Hall as [|image' rest [Hfile Hdb] _ IH]; intros w; simpl.
  - unfold deletable in Hbad.
    destruct (file_error env image) as [e|]; [done |].
    destruct (db_error env (EditorImage.id image)) as [e|]; [|tauto].
    split; [done |]. by exists e.
  - rewrite Hfile, Hdb. destruct (IH (deleted image' w)) as [-> H].
    split; [done |]. done.
Qed.

(** A row whose id none of the images bears outlives the loop, however
    the loop ends. *)
Lemma purge_keeps (images : list EditorImage.t) (w : World)
    (row : EditorImage.t) :
  row ∈ editor_images w →
  EditorImage.id row ∉ EditorImage.id <$> images →
  row ∈ editor_images (purge env images w).1.
Proof.
  revert w. induction images as [|image rest IH]; intros w Hrow Hid; simpl.
  - done.
  - apply not_elem_of_cons in Hid as [Hne Hid].
    destruct (file_error env image) as [e|]; [done |].
    destruct (db_error env (EditorImage.id image)) as [e|].
    + simpl. unfold unlink. by destruct (decide _).
    + apply IH; [|done]. rewrite deleted_rows.
      apply list_elem_of_filter. done.
Qed.

End WorldFacts.

(** ** The used ids and the referenced ids *)

Section ReachFacts.

Variable env : Env.

Local Arguments Re.MARKER_OPEN : simpl never.
Local Arguments int_max_str_digits : simpl never.

Local Abbreviation nd := (unicode_decimal env).
Local Abbreviation short := (λ ds : Text, (length ds ≤ int_max_str_digits)%nat).

(** The digits [\d] matches and [int] reads are the decimal digits, with
    their values. *)
Lemma decimal_digit_spec (c : N) (v : Z) :
  decimal_digit env c v ↔ Re.decimal nd c = Some v.
Proof.
  unfold Re.decimal. split.
  - intros [v' Hv | c' v' Hc Hv].
    + replace (Z.to_N (48 + v') <? 128)%N with true
        by (symmetry; apply N.ltb_lt; lia).
      replace ((48 <=? Z.to_N (48 + v')) && (Z.to_N (48 + v') <=? 57))%N
        with true
        by (symmetry; apply andb_true_iff; split; apply N.leb_le; lia).
      f_equal. lia.
    + replace (c' <? 128)%N with false by (symmetry; apply N.ltb_ge; lia).
      done.
  - destruct (c <? 128)%N eqn:Hc.
    + destruct ((48 <=? c) && (c <=? 57))%N eqn:Hrange; [|done].
      apply andb_true_iff in Hrange as [H1%N.leb_le H2%N.leb_le].
      intros [= <-].
      replace c with (Z.to_N (48 + (Z.of_N c - 48))) at 1 by lia.
      apply ascii_digit. lia.
    + apply N.ltb_ge in Hc. intros Hv. by apply unicode_digit.
Qed.

Lemma is_digits_spec (ds : Text) (values : list Z) :
  is_digits env ds values ↔
  ds ≠ [] ∧ Forall2 (λ c v, Re.decimal nd c = Some v) ds values.
Proof.
  unfold is_digits. split; intros [Hne H]; (split; [done |]);
    (eapply Forall2_impl; [exact H |]); intros c v; apply decimal_digit_spec.
Qed.

Lemma int_value_from (ds : Text) (values : list Z) (acc : Z) :
  Forall2 (λ c v, Re.decimal nd c = Some v) ds values →
  fold_left (λ acc c, 10 * acc + default 0 (Re.decimal nd c)) ds acc =
  acc * 10 ^ Z.of_nat (length values) + positional values.
Proof.
  intros H. revert acc.
  induction H as [|c v ds values Hc _ IH]; intros acc;
    cbn [fold_left positional length].
  - lia.
  - rewrite IH, Hc. rewrite Nat2Z.inj_succ, Z.pow_succ_r by lia.
    unfold default. cbn [from_option id]. ring.
Qed.

(** [int()] reads a run of decimal digits as the number they denote. *)
Lemma int_value_positional (ds : Text) (values : list Z) :
  Forall2 (λ c v, Re.decimal nd c = Some v) ds values →
  int_value env ds = positional values.
Proof. intros H. unfold int_value. rewrite (int_value_from _ _ _ H). lia. Qed.

Lemma gathered_ints_sound (groups : list Text) (z : Z) :
  z ∈ (gathered_ints env groups).1 →
  ∃ ds, ds ∈ groups ∧ short ds ∧ z = int_value env ds.
Proof.
  induction groups as [|ds rest IH]; cbn [gathered_ints].
  - by intros ?%not_elem_of_empty.
  - destruct (decide (int_max_str_digits < length ds)%nat) as [Hlong|Hshort].
    + by intros ?%not_elem_of_empty.
    + destruct (gathered_ints env rest) as [ids e]. simpl in *.
      rewrite elem_of_union, elem_of_singleton. intros [-> | H].
      * exists ds. split_and!; [left | cbv beta; lia | done].
      * destruct (IH H) as (ds' & ? & ? & ?). exists ds'.
        split_and!; [by right | done | done].
Qed.

Lemma gathered_ints_reach (g1 g2 : list Text) (ds : Text) :
  Forall short g1 → short ds →
  int_value env ds ∈ (gathered_ints env (g1 ++ ds :: g2)).1.
Proof.
  intros H1 Hds. cbv beta in Hds.
  induction H1 as [|d g1 Hd _ IH]; cbn [app gathered_ints].
  - rewrite decide_False by lia.
    destruct (gathered_ints env g2) as [ids e]. simpl. set_solver.
  - rewrite decide_False by lia.
    destruct (gathered_ints env (g1 ++ ds :: g2)) as [ids e]. simpl in *.
    set_solver.
Qed.

Lemma gathered_ints_short (groups : list Text) :
  Forall short groups → (gathered_ints env groups).2 = None.
Proof.
  intros H. induction H as [|d g Hd _ IH]; cbn [gathered_ints]; [done |].
  cbv beta in Hd. rewrite decide_False by lia.
  by destruct (gathered_ints env g) as [ids e].
Qed.

Lemma findall_sound (content ds : Text) :
  ds ∈ Re.findall nd content →
  ∃ pre post values, content = pre ++ marker ds ++ post ∧
                     is_digits env ds values.
Proof.
  intros (pre & post & -> & Hne & Hds)%findall_from_sound.
  apply digits_values in Hds as [values Hvalues].
  exists pre, post, values. rewrite marker_app. split; [done |].
  by apply is_digits_spec.
Qed.

Lemma findall_short (content : Text) :
  ¬ has_long_marker env content → Forall short (Re.findall nd content).
Proof.
  intros Hno. apply Forall_forall. intros ds Hds.
  destruct (decide (int_max_str_digits < length ds)%nat) as [Hlong|];
    [|cbv beta; lia].
  destruct Hno. apply findall_sound in Hds as (pre & post & values & ? & ?).
  by exists pre, ds, values, post.
Qed.

Lemma marked_text_truthy (pre ds post : Text) :
  truthy (PyStr (pre ++ marker ds ++ post)) = true.
Proof. by destruct pre. Qed.

Lemma has_long_marker_prefix (pre rest : Text) :
  has_long_marker env pre → has_long_marker env (pre ++ rest).
Proof.
  intros (p & ds & values & q & -> & Hd & Hlen).
  exists p, ds, values, (q ++ rest). by rewrite <- !app_assoc.
Qed.

Lemma gathered_value_sound (v : PyValue) (z : Z) :
  z ∈ (gathered_value env v).1 →
  ∃ content, v = PyStr content ∧ has_marker env content z.
Proof.
  unfold gathered_value. destruct v as [|content]; simpl.
  - by intros ?%not_elem_of_empty.
  - destruct content as [|c content]; [by intros ?%not_elem_of_empty |].
    intros (ds & Hds & Hlen & ->)%gathered_ints_sound.
    apply findall_sound in Hds as (pre & post & values & Hc & Hd).
    exists (c :: content). split; [done |].
    exists pre, ds, values, post. split_and!; try done.
    symmetry. by apply int_value_positional, is_digits_spec.
Qed.

(** A marker with a run of at most 4300 digits is gathered when no marker
    before it in the text has a longer run. *)
Lemma gathered_value_reach (pre ds post : Text) (values : list Z) :
  ¬ has_long_marker env pre →
  is_digits env ds values →
  short ds →
  positional values ∈
    (gathered_value env (PyStr (pre ++ marker ds ++ post))).1.
Proof.
  intros Hpre [Hne Hd]%is_digits_spec Hlen. unfold gathered_value.
  rewrite marked_text_truthy. cbn [str].
  rewrite findall_marker; [|done |apply digits_values; by exists values].
  rewrite <- (int_value_positional ds values Hd).
  apply gathered_ints_reach; [by apply findall_short | done].
Qed.

Lemma gathered_value_complete (content : Text) (z : Z) :
  ¬ has_long_marker env content →
  has_marker env content z →
  z ∈ (gathered_value env (PyStr content)).1.
Proof.
  intros Hno (pre & ds & values & post & -> & Hd & <-).
  apply gathered_value_reach; [|done |].
  - intros H. by apply Hno, has_long_marker_prefix.
  - destruct (decide (int_max_str_digits < length ds)%nat) as [Hlong|];
      [|cbv beta; lia].
    destruct Hno. by exists pre, ds, values, post.
Qed.

Lemma gathered_value_passes (content : Text) :
  ¬ has_long_marker env content →
  (gathered_value env (PyStr content)).2 = None.
Proof.
  intros Hno. unfold gathered_value.
  destruct (truthy (PyStr content)); [|done].
  by apply gathered_ints_short, findall_short.
Qed.

Lemma gathered_instance_sound (name : string) (instance : Instance) (z : Z) :
  z ∈ (gathered_instance env name instance).1 →
  ∃ content, instance !! name = Some (AttrValue (PyStr content)) ∧
             has_marker env content z.
Proof.
  unfold gathered_instance, read.
  destruct (instance !! name) as [[v|e]|]; simpl.
  - intros (content & -> & H)%gathered_value_sound. by exists content.
  - by intros ?%not_elem_of_empty.
  - by intros ?%not_elem_of_empty.
Qed.

Lemma gathered_instance_passes (name : string) (instance : Instance) :
  passes env name instance →
  (gathered_instance env name instance).2 = None.
Proof.
  unfold passes, gathered_instance, read.
  destruct (instance !! name) as [[[|content]|e]|]; simpl; try done.
  apply gathered_value_passes.
Qed.

Lemma gathered_instance_complete (name : string) (instance : Instance)
    (content : Text) (z : Z) :
  passes env name instance →
  instance !! name = Some (AttrValue (PyStr content)) →
  has_marker env content z →
  z ∈ (gathered_instance env name instance).1.
Proof.
  unfold passes, gathered_instance, read. intros Hp Hattr. rewrite Hattr in *.
  simpl. by apply gathered_value_complete.
Qed.

Lemma gathered_instances_sound (name : string) (instances : list Instance)
    (z : Z) :
  z ∈ (gathered_instances env name instances).1 →
  ∃ instance, instance ∈ instances ∧
              z ∈ (gathered_instance env name instance).1.
Proof.
  induction instances as [|instance rest IH]; cbn [gathered_instances].
  - by intros ?%not_elem_of_empty.
  - destruct (gathered_instance env name instance) as [ids [e|]] eqn:Hg.
    + simpl. intros Hz. exists instance. rewrite Hg. split; [left | done].
    + destruct (gathered_instances env name rest) as [ids' e']. simpl in *.
      rewrite elem_of_union. intros [Hz | Hz].
      * exists instance. rewrite Hg. split; [left | done].
      * destruct (IH Hz) as (instance' & ? & ?). exists instance'.
        split; [by right | done].
Qed.

Lemma gathered_instances_reach (name : string)
    (before after : list Instance) (instance : Instance) (z : Z) :
  Forall (passes env name) before →
  z ∈ (gathered_instance env name instance).1 →
  z ∈ (gathered_instances env name (before ++ instance :: after)).1.
Proof.
  intros Hbefore Hz.
  induction Hbefore as [|b before Hb _ IH]; cbn [app gathered_instances].
  - destruct (gathered_instance env name instance) as [ids [e|]]; [done |].
    destruct (gathered_instances env name after) as [ids' e']. simpl in *.
    set_solver.
  - apply gathered_instance_passes in Hb.
    destruct (gathered_instance env name b) as [ids e]. simpl in Hb. subst e.
    destruct (gathered_instances env name (before ++ instance :: after))
      as [ids' e']. simpl in *. set_solver.
Qed.

Lemma gathered_instances_passes (name : string) (instances : list Instance) :
  Forall (passes env name) instances →
  (gathered_instances env name instances).2 = None.
Proof.
  intros H. induction H as [|b rest Hb _ IH]; cbn [gathered_instances]; [done |].
  apply gathered_instance_passes in Hb.
  destruct (gathered_instance env name b) as [ids e]. simpl in Hb. subst e.
  by destruct (gathered_instances env name rest) as [ids' e'].
Qed.

Lemma elem_of_text_fields (model : Model) (field : Field) :
  field ∈ text_fields model ↔
  field ∈ model_fields model ∧ is_text_field field = true.
Proof.
  unfold text_fields. by rewrite !list_elem_of_In, filter_In.
Qed.

Lemma elem_of_scanned_ids (z : Z) :
  z ∈ scanned_ids env ↔
  ∃ model field,
    model ∈ apps_models env ∧ field ∈ model_fields model ∧
    is_text_field field = true ∧ z ∈ field_ids env model field.
Proof.
  unfold scanned_ids, model_ids. rewrite elem_of_union_list. split.
  - intros (X & HX & Hz).
    apply list_elem_of_fmap in HX as (model & -> & Hmodel).
    apply elem_of_union_list in Hz as (Y & HY & Hz).
    apply list_elem_of_fmap in HY as (field & -> & Hfield).
    apply elem_of_text_fields in Hfield as [Hfield Htext].
    by exists model, field.
  - intros (model & field & Hmodel & Hfield & Htext & Hz).
    exists (⋃ (field_ids env model <$> text_fields model)). split.
    + apply list_elem_of_fmap. by exists model.
    + apply elem_of_union_list. exists (field_ids env model field). split.
      * apply list_elem_of_fmap. exists field. split; [done |].
        by apply elem_of_text_fields.
      * done.
Qed.

(** Every id the scan loop gathers is referenced by some text attribute. *)
Lemma scanned_ids_sound (z : Z) : z ∈ scanned_ids env → referenced env z.
Proof.
  intros (model & field & Hmodel & Hfield & Htext & Hz)%elem_of_scanned_ids.
  unfold field_ids, gathered_field in Hz.
  destruct (model_objects model) as [instances|e] eqn:Hobj;
    [|by apply not_elem_of_empty in Hz].
  apply gathered_instances_sound in Hz as (instance & Hin & Hz).
  apply gathered_instance_sound in Hz as (content & Hattr & Hm).
  by exists model, field, instances, instance, content.
Qed.

(** What an instance contributes is gathered when the loop body went
    through for the instances before it. *)
Lemma scanned_ids_reach (model : Model) (field : Field)
    (before after : list Instance) (instance : Instance) (z : Z) :
  model ∈ apps_models env →
  field ∈ model_fields model →
  is_text_field field = true →
  model_objects model = Fetched (before ++ instance :: after) →
  Forall (passes env (field_name field)) before →
  z ∈ (gathered_instance env (field_name field) instance).1 →
  z ∈ scanned_ids env.
Proof.
  intros Hmodel Hfield Htext Hobj Hbefore Hz.
  apply elem_of_scanned_ids. exists model, field. split_and!; try done.
  unfold field_ids, gathered_field. rewrite Hobj.
  by apply gathered_instances_reach.
Qed.

(** When nothing raises during the scan, the loop gathers exactly the
    referenced ids. *)
Lemma scanned_ids_referenced (z : Z) :
  error_free env → z ∈ scanned_ids env ↔ referenced env z.
Proof.
  intros Hfree. split; [apply scanned_ids_sound |].
  intros (model & field & instances & instance & content &
          Hmodel & Hfield & Htext & Hobj & Hin & Hattr & Hm).
  destruct (Hfree model field Hmodel Hfield Htext) as (instances' & Hobj' & Hall).
  rewrite Hobj in Hobj'. injection Hobj' as <-.
  apply list_elem_of_split in Hin as (before & after & ->).
  apply Forall_app in Hall as [Hbefore Hrest].
  apply Forall_cons in Hrest as [Hinst _].
  eapply scanned_ids_reach; try done.
  by eapply gathered_instance_complete.
Qed.

(** When nothing raises during the scan, the scan loop writes no
    warning. *)
Lemma error_free_lines :
  error_free env →
  Forall (λ line : Line, line.1 = PLAIN) (scan_lines env (apps_models env)).
Proof.
  intros Hfree. unfold scan_lines. apply Forall_forall. intros line Hline.
  apply elem_of_concat in Hline as (lines & Hlines & Hline).
  apply list_elem_of_fmap in Hlines as (model & -> & Hmodel).
  unfold model_lines in Hline.
  destruct (text_fields model) as [|f fs] eqn:Hfields;
    [by apply elem_of_nil in Hline |].
  apply elem_of_cons in Hline as [-> | Hline]; [done |].
  apply elem_of_concat in Hline as (lines & Hlines & Hline).
  apply list_elem_of_fmap in Hlines as (field & -> & Hfield).
  rewrite <- Hfields in Hfield.
  apply elem_of_text_fields in Hfield as [Hfield Htext].
  destruct (Hfree model field Hmodel Hfield Htext) as (instances & Hobj & Hall).
  unfold field_lines, gathered_field in Hline. rewrite Hobj in Hline.
  rewrite (gathered_instances_passes _ _ Hall) in Hline.
  by apply elem_of_nil in Hline.
Qed.

(** However a run ends, its [used_image_ids] is the set the scan loop
    built. *)
Lemma scan_used (dry_run : bool) (w : World) :
  used_image_ids (final (scan env dry_run w)) = scanned_ids env.
Proof.
  rewrite scan_unfold. cbv zeta.
  destruct (bind_error env (scanned_ids env)); [done |].
  destruct (length (unused_images env w) =? 0)%nat; [done |].
  destruct dry_run; [done |].
  rewrite delete_loop_spec. cbv zeta.
  by destruct (purge env (unused_images env w) _).2.
Qed.

(** A query that raises ends the run before anything is reported as
    unused or deleted. *)
Lemma scan_query_raises (dry_run : bool) (w : World) (e : Exception) :
  bind_error env (scanned_ids env) = Some e →
  scan env dry_run w = Raise e (surveyed env w).
Proof. intros H. rewrite scan_unfold. cbv zeta. by rewrite H. Qed.

(** The world a run ends in and the exception it ends with, when its
    query runs. *)
Lemma scan_world (dry_run : bool) (w : World) :
  query_runs env →
  world (final (scan env dry_run w)) =
    (if dry_run then w else (purge env (unused_images env w) w).1) ∧
  raised (scan env dry_run w) =
    (if dry_run then None else (purge env (unused_images env w) w).2).
Proof.
  intros Hq. rewrite scan_unfold. cbv zeta. rewrite Hq.
  destruct (length (unused_images env w) =? 0)%nat eqn:Hlen.
  - apply Nat.eqb_eq, nil_length_inv in Hlen. rewrite Hlen. simpl.
    by destruct dry_run.
  - destruct dry_run; [done |].
    rewrite delete_loop_spec. cbv zeta.
    by destruct (purge env (unused_images env w) _).2.
Qed.

(** A row whose id is in the used set outlives any run. *)
Lemma scan_keeps_used (dry_run : bool) (w : World) (row : EditorImage.t) :
  row ∈ editor_images w →
  EditorImage.id row ∈ scanned_ids env →
  row ∈ editor_images (world (final (scan env dry_run w))).
Proof.
  intros Hrow Hid.
  destruct (bind_error env (scanned_ids env)) as [e|] eqn:Hq.
  - by rewrite (scan_query_raises _ _ _ Hq).
  - destruct (scan_world dry_run w Hq) as [-> _].
    destruct dry_run; [done |].
    apply purge_keeps; [done |].
    intros (row' & Heq & [_ Hn]%unused_images_elem)%list_elem_of_fmap.
    apply Hn. by rewrite <- Heq.
Qed.

End ReachFacts.

(** * The properties the specification states *)

Lemma returned_of_raised {r : Result unit} :
  raised r = None → r = Ok tt (final r).
Proof. by destruct r as [[] s|e s]. Qed.

(** A run that returned ran its query. *)
Lemma returned_query_runs (env : Env) (dry_run : bool) (w : World) (s : State) :
  scan env dry_run w = Ok tt s → query_runs env.
Proof.
  unfold query_runs. intros Hrun.
  destruct (bind_error env (scanned_ids env)) as [e|] eqn:Hq; [|done].
  by rewrite (scan_query_raises env dry_run w e Hq) in Hrun.
Qed.

(** When the query runs and every deletion of an unused image goes
    through, a run that deletes ends normally in the world without the
    unused images. *)
Lemma scan_deletable (env : Env) (w : World) :
  query_runs env →
  Forall (deletable env) (unused_images env w) →
  scan env false w = Ok tt (final (scan env false w)) ∧
  world (final (scan env false w)) = deleted_all (unused_images env w) w.
Proof.
  intros Hq Hall.
  destruct (scan_world env false w Hq) as [Hw Hr].
  destruct (purge_deletable env _ w Hall) as [Hp _].
  rewrite Hp in Hw, Hr. split; [by apply returned_of_raised | done].
Qed.

(** The rows that bear the id of no unused image are the rows whose id is
    in the used set. *)
Lemma kept_rows (env : Env) (w : World) :
  filter (λ row, EditorImage.id row ∉ EditorImage.id <$> unused_images env w)
         (editor_images w) =
  filter (λ image, EditorImage.id image ∈ scanned_ids env) (editor_images w).
Proof.
  apply filter_ext_elem. intros row Hrow. split.
  - intros Hid.
    destruct (decide (EditorImage.id row ∈ scanned_ids env)) as [|Hn]; [done |].
    destruct Hid. apply list_elem_of_fmap. exists row. split; [done |].
    by apply unused_images_elem.
  - intros Hused (row' & Heq & [_ Hn]%unused_images_elem)%list_elem_of_fmap.
    by rewrite Heq in Hused.
Qed.

Lemma unused_file_names (env : Env) (w : World) :
  file_names (unused_images env w) =
  file_names (filter (λ image, EditorImage.id image ∉ scanned_ids env)
                     (editor_images w)).
Proof.
  apply set_eq. intros name. rewrite !elem_of_file_names.
  setoid_rewrite unused_images_elem. setoid_rewrite list_elem_of_filter.
  naive_solver.
Qed.

(** A text attribute that holds a marker references the id the digits
    denote. *)
Lemma referenced_here (env : Env) (model : Model) (field : Field)
    (instances : list Instance) (instance : Instance) (pre ds post : Text)
    (values : list Z) :
  model ∈ apps_models env →
  field ∈ model_fields model →
  is_text_field field = true →
  model_objects model = Fetched instances →
  instance ∈ instances →
  instance !! field_name field =
    Some (AttrValue (PyStr (pre ++ marker ds ++ post))) →
  is_digits env ds values →
  referenced env (positional values).
Proof.
  intros. exists model, field, instances, instance, (pre ++ marker ds ++ post).
  split_and!; try done. by exists pre, ds, values, post.
Qed.

Lemma sound_deletable (models : list Model) (image : EditorImage.t) :
  deletable (Examples.sound models) image.
Proof. split; [|done]. unfold file_error. by destruct (decide _). Qed.

(** A marker with a run of more than 4300 digits needs a text that
    long. *)
Lemma short_text_passes (env : Env) (content : Text) :
  (length content ≤ int_max_str_digits)%nat → ¬ has_long_marker env content.
Proof.
  intros Hlen (pre & ds & values & post & -> & _ & Hlong).
  unfold marker in Hlen. rewrite !length_app in Hlen. lia.
Qed.

Lemma plain_instance_passes (env : Env) (name : string) (instance : Instance) :
  plain_instance instance = true → passes env name instance.
Proof.
  unfold plain_instance, passes. intros Hall.
  destruct (instance !! name) as [a|] eqn:Hattr; [|done].
  apply elem_of_map_to_list in Hattr.
  rewrite forallb_forall in Hall. apply list_elem_of_In, Hall in Hattr.
  destruct a as [[|content]|e]; simpl in Hattr; try done.
  apply short_text_passes. by apply Nat.leb_le.
Qed.

Lemma plain_error_free (env : Env) :
  forallb plain_model (apps_models env) = true → error_free env.
Proof.
  intros Hall model field Hmodel Hfield Htext.
  rewrite forallb_forall in Hall. apply list_elem_of_In, Hall in Hmodel.
  unfold plain_model in Hmodel.
  destruct (model_objects model) as [instances|e].
  - exists instances. split; [done |]. apply Forall_forall.
    intros instance Hin. apply plain_instance_passes.
    rewrite forallb_forall in Hmodel. by apply Hmodel, list_elem_of_In.
  - apply negb_true_iff in Hmodel. unfold has_text_field in Hmodel.
    assert (existsb is_text_field (model_fields model) = true) as Hex.
    { apply existsb_exists. exists field. by rewrite <- list_elem_of_In. }
    congruence.
Qed.

(** The digits [0-9] denote themselves in every environment. *)
Lemma ascii_digits (env : Env) (digits : string) (values : list Z) :
  Forall2 (λ c v, (48 <=? c)%N && (c <=? 57)%N = true ∧ v = Z.of_N c - 48)
          (text digits) values →
  Forall2 (decimal_digit env) (text digits) values.
Proof.
  intros H. eapply Forall2_impl; [exact H |].
  intros c v [[H1%N.leb_le H2%N.leb_le]%andb_true_iff ->].
  replace c with (Z.to_N (48 + (Z.of_N c - 48))) at 1 by lia.
  apply ascii_digit. lia.
Qed.

(** C4.  A dry run never mutates: whatever the image table, the storage
    and the content records hold, and however many unused images are found
    and reported, [scan] with [dry_run] set ends in the world (rows and
    files) it was started in.  It ends normally unless the query for the
    unused images raises. *)
Theorem dry_run_never_mutates (env : Env) (w : World) :
  world (final (scan env true w)) = w ∧
  raised (scan env true w) = bind_error env (scanned_ids env).
Proof.
  destruct (bind_error env (scanned_ids env)) as [e|] eqn:Hq.
  - by rewrite (scan_query_raises env true w e Hq).
  - by destruct (scan_world env true w Hq) as [-> ->].
Qed.

(** C1, as the code has it.  When nothing raises during the scan, the
    query for the unused images runs and the deletion of no unreferenced
    image raises, a deleting run over any image table and any content
    records returns; it removes exactly the rows whose id no text
    attribute references and keeps every other row as it was.  The files
    removed are those the removed rows name: a kept row keeps its file
    unless a removed row names the same file.  It is not needed that the
    referenced ids all belong to stored images. *)
Theorem scan_deletes_exactly_unreferenced (env : Env) (w : World) :
  error_free env →
  query_runs env →
  (∀ image, image ∈ editor_images w →
            ¬ referenced env (EditorImage.id image) →
            deletable env image) →
  ∃ s, scan env false w = Ok tt s ∧
       (∀ z, z ∈ used_image_ids s ↔ referenced env z) ∧
       editor_images (world s) =
         filter (λ image, EditorImage.id image ∈ used_image_ids s)
                (editor_images w) ∧
       media (world s) =
         media w ∖ file_names
                     (filter (λ image, EditorImage.id image ∉ used_image_ids s)
                             (editor_images w)) ∧
       (∀ image, image ∈ editor_images w →
                 image ∉ editor_images (world s) ↔
                 ¬ referenced env (EditorImage.id image)) ∧
       (∀ image, image ∈ editor_images w →
                 referenced env (EditorImage.id image) →
                 EditorImage.image image ∈ media w →
                 (∀ image', image' ∈ editor_images w →
                            ¬ referenced env (EditorImage.id image') →
                            EditorImage.image image' ≠ EditorImage.image image) →
                 EditorImage.image image ∈ media (world s)).
Proof.
  intros Hfree Hq Hok.
  assert (Forall (deletable env) (unused_images env w)) as Hall.
  { apply Forall_forall. intros image [Hin Hn]%unused_images_elem.
    apply Hok; [done |]. by rewrite <- scanned_ids_referenced. }
  destruct (scan_deletable env w Hq Hall) as [Hr Hw].
  exists (final (scan env false w)). split; [done |].
  rewrite scan_used, Hw, deleted_all_rows, deleted_all_media, kept_rows,
    unused_file_names.
  split_and!.
  - intros z. by apply scanned_ids_referenced.
  - done.
  - done.
  - intros image Himage. rewrite list_elem_of_filter.
    rewrite <- scanned_ids_referenced by done. tauto.
  - intros image Himage Href Hfile Hother.
    apply elem_of_difference. split; [done |].
    intros (_ & image' & [Hn Hin']%list_elem_of_filter & Hname)%elem_of_file_names.
    apply (Hother image' Hin'); [|done].
    by rewrite <- scanned_ids_referenced.
Qed.

Lemma scan_deletes_exactly_unreferenced_witness :
  ∃ s, scan (Examples.sound [Examples.BlogPost
                               [Examples.post "a" (Examples.img_tag "2")]])
            false
            (Examples.store [Examples.image1; Examples.image2; Examples.image3])
       = Ok tt s ∧
       editor_images (world s) = [Examples.image2] ∧
       media (world s) = {["editor_uploads/two.jpg"]}.
Proof.
  destruct (scan_deletes_exactly_unreferenced
              (Examples.sound [Examples.BlogPost
                                 [Examples.post "a" (Examples.img_tag "2")]])
              (Examples.store [Examples.image1; Examples.image2; Examples.image3]))
    as (s & Hrun & _ & Hrows & Hmedia & _).
  - apply plain_error_free. vm_compute. reflexivity.
  - vm_compute. reflexivity.
  - intros image _ _. apply sound_deletable.
  - exists s. split; [exact Hrun |].
    rewrite Hrows, Hmedia.
    apply (f_equal final) in Hrun. simpl in Hrun. rewrite <- Hrun.
    split; vm_compute; reflexivity.
Defined.

(** C1, as stated, fails; two worlds show it.  In the first nothing
    raises: images 1 and 2 name the same file and a post references
    image 2; the run removes image 1 and with it the file that image 2
    names, so image 2 is not left untouched.  In the second the first post
    cannot be read and the second references image 2; a text attribute
    holds a marker for image 2, and image 2 is deleted. *)
Lemma unreferenced_only_counterexample :
  let posts := [Examples.post "a" (Examples.img_tag "2")] in
  let env := Examples.sound [Examples.BlogPost posts] in
  let w := Examples.store [MoreExamples.shared1; MoreExamples.shared2] in
  let env' := Examples.sound
                [Examples.BlogPost (Examples.broken_post "b" :: posts)] in
  let w' := Examples.store [Examples.image1; Examples.image2] in
  (referenced env 2 ∧
   raised (scan env false w) = None ∧
   editor_images (world (final (scan env false w))) = [MoreExamples.shared2] ∧
   EditorImage.image MoreExamples.shared2 ∈ media w ∧
   EditorImage.image MoreExamples.shared2
     ∉ media (world (final (scan env false w)))) ∧
  (referenced env' 2 ∧
   raised (scan env' false w') = None ∧
   editor_images (world (final (scan env' false w'))) = []).
Proof.
  intros posts env w env' w'.
  assert (∀ env0, is_digits env0 (text "2") [2]) as Hd.
  { split; [discriminate |]. apply ascii_digits. by repeat constructor. }
  split; split_and!.
  - eapply (referenced_here env _ Examples.content_field _ _ _ (text "2") _ [2]);
      [apply list_elem_of_here | by apply list_elem_of_further, list_elem_of_here
      | done | done | apply list_elem_of_here | done | done].
  - vm_compute. reflexivity.
  - vm_compute. reflexivity.
  - vm_compute. reflexivity.
  - vm_compute. discriminate.
  - eapply (referenced_here env' _ Examples.content_field _ _ _ (text "2") _ [2]);
      [apply list_elem_of_here | by apply list_elem_of_further, list_elem_of_here
      | done | done | apply list_elem_of_further, list_elem_of_here | done | done].
  - vm_compute. reflexivity.
  - vm_compute. reflexivity.
Qed.

(** C5, as the code has it.  A marker [data-image-id="<digits>"] in a text
    attribute of an instance puts the number its digits denote into
    [used_image_ids], which model and which attribute hold it being of no
    account, provided the loop over the instances gets to it: the
    instances are fetched, the loop body went through for the instances
    listed before, no marker before it in the same text has a run of more
    than 4300 digits, and its own run has at most 4300.  An image bearing
    that id is then not deleted, however the run ends.  The used ids form a
    set, and every id in it is referenced by a marker in some text
    attribute. *)
Theorem marker_marks_image_used (env : Env) (dry_run : bool) (w : World)
    (model : Model) (field : Field) (before after : list Instance)
    (instance : Instance) (pre ds post : Text) (values : list Z) :
  model ∈ apps_models env →
  field ∈ model_fields model →
  is_text_field field = true →
  model_objects model = Fetched (before ++ instance :: after) →
  Forall (passes env (field_name field)) before →
  instance !! field_name field =
    Some (AttrValue (PyStr (pre ++ marker ds ++ post))) →
  ¬ has_long_marker env pre →
  is_digits env ds values →
  (length ds ≤ int_max_str_digits)%nat →
  let used := used_image_ids (final (scan env dry_run w)) in
  positional values ∈ used ∧
  (∀ image, image ∈ editor_images w →
            EditorImage.id image = positional values →
            image ∈ editor_images (world (final (scan env dry_run w)))) ∧
  (∀ z, z ∈ used → referenced env z).
Proof.
  intros Hmodel Hfield Htext Hobj Hbefore Hattr Hpre Hds Hlen used. subst used.
  rewrite scan_used.
  assert (positional values ∈ scanned_ids env) as Hused.
  { eapply scanned_ids_reach; try done.
    unfold gathered_instance, read. rewrite Hattr. simpl.
    by apply gathered_value_reach. }
  split_and!; [done | | apply scanned_ids_sound].
  intros image Himage Hid. apply scan_keeps_used; [done |]. by rewrite Hid.
Qed.

Lemma marker_marks_image_used_witness :
  let env := Examples.sound
               [Examples.BlogPost [Examples.post "a" (Examples.img_tag "42")]] in
  positional [4; 2] = 42 ∧
  42 ∈ used_image_ids (final (scan env true (Examples.store [Examples.image1]))).
Proof.
  intros env. split; [reflexivity |].
  refine (proj1 (marker_marks_image_used
           env true (Examples.store [Examples.image1])
           (Examples.BlogPost [Examples.post "a" (Examples.img_tag "42")])
           Examples.content_field [] []
           (Examples.post "a" (Examples.img_tag "42"))
           (text "<p><img src=x ") (text "42") (text "></p>") [4; 2]
           _ _ _ _ _ _ _ _ _)).
  - apply list_elem_of_here.
  - apply list_elem_of_further, list_elem_of_here.
  - reflexivity.
  - reflexivity.
  - constructor.
  - reflexivity.
  - apply short_text_passes. vm_compute. lia.
  - split; [discriminate |]. apply ascii_digits. by repeat constructor.
  - vm_compute. lia.
Defined.

(** C5, as stated, fails.  One text holds a marker with a run of 4301
    digits and, after it, a marker for image 1.  [re.findall] returns both
    runs; [int] refuses the first, the [try] catches the [ValueError], and
    the id 1 is never added: image 1 is deleted although a scanned text
    attribute holds its marker. *)
Lemma marker_after_long_run_counterexample :
  let content := Examples.long_marker ++ Examples.img_tag "1" in
  let env := Examples.sound [Examples.BlogPost [Examples.post "a" content]] in
  let w := Examples.store [Examples.image1] in
  has_marker env content 1 ∧
  Re.findall (unicode_decimal env) content = [replicate 4301 49%N; text "1"] ∧
  raised (scan env false w) = None ∧
  (WARNING, "Error checking BlogPost.content: " +:+
            int_error (replicate 4301 49%N)) ∈ stdout (final (scan env false w)) ∧
  used_image_ids (final (scan env false w)) = ∅ ∧
  editor_images (world (final (scan env false w))) = [].
Proof.
  intros content env w. split_and!.
  - exists (Examples.long_marker ++ text "<p><img src=x "), (text "1"), [1],
      (text "></p>").
    split_and!.
    + unfold content, Examples.img_tag. by rewrite <- !app_assoc.
    + split; [discriminate |]. apply ascii_digits. by repeat constructor.
    + reflexivity.
  - vm_compute. reflexivity.
  - vm_compute. reflexivity.
  - vm_compute. do 3 apply list_elem_of_further. apply list_elem_of_here.
  - vm_compute. reflexivity.
  - vm_compute. reflexivity.
Qed.

(** C6.  A deleting run that follows a completed deleting run, with the
    content records and the images otherwise unchanged, finds no unused
    image and deletes nothing: it leaves the world as the first run left
    it and writes no deletion line. *)
Theorem second_scan_deletes_nothing (env : Env) (w : World) (s1 : State) :
  scan env false w = Ok tt s1 →
  ∃ s2, scan env false (world s1) = Ok tt s2 ∧
        world s2 = world s1 ∧
        unused_images env (world s1) = [] ∧
        stdout s2 =
          header env (world s1) ++ [(SUCCESS, "No unused images found!")].
Proof.
  intros Hrun. pose proof (returned_query_runs env false w s1 Hrun) as Hq.
  destruct (scan_world env false w Hq) as [Hw Hr]. rewrite Hrun in Hw, Hr.
  simpl in Hw, Hr. symmetry in Hr. apply purge_returns in Hr as Hall.
  destruct (purge_deletable env _ w Hall) as [Hp _]. rewrite Hp in Hw.
  simpl in Hw.
  assert (unused_images env (world s1) = []) as Hnone.
  { apply no_elem_nil. intros image [Hin Hn]%unused_images_elem.
    rewrite Hw, deleted_all_rows in Hin.
    apply list_elem_of_filter in Hin as [Hid Hin]. apply Hid.
    apply list_elem_of_fmap. exists image. split; [done |].
    by apply unused_images_elem. }
  rewrite scan_unfold. cbv zeta. rewrite Hq, Hnone. simpl.
  by eexists.
Qed.

Lemma second_scan_deletes_nothing_witness :
  let env := Examples.sound [Examples.BlogPost
                               [Examples.post "a" (Examples.img_tag "2")]] in
  let w := Examples.store [Examples.image1; Examples.image2] in
  ∃ s2, scan env false (world (final (scan env false w))) = Ok tt s2 ∧
        world s2 = world (final (scan env false w)).
Proof.
  intros env w.
  destruct (second_scan_deletes_nothing env w (final (scan env false w)))
    as (s2 & Hrun & Hworld & _).
  - apply returned_of_raised. vm_compute. reflexivity.
  - exists s2. split; [exact Hrun | exact Hworld].
Defined.

(** C10.  An instance whose scanned attribute is empty or missing is
    passed over in silence: the loop body returns in the state it was
    entered in, so no id is added and nothing is written, and the loop over
    the instances runs as if the instance were not listed. *)
Theorem empty_attribute_is_skipped (env : Env) (field : Field)
    (before after : list Instance) (instance : Instance) (s : State) :
  empty_or_missing (field_name field) instance →
  scan_instance env field instance s = Ok tt s ∧
  for_each (before ++ instance :: after) (scan_instance env field) s =
  for_each (before ++ after) (scan_instance env field) s.
Proof.
  intros Hempty.
  assert (∀ s', scan_instance env field instance s' = Ok tt s') as Hskip.
  { intros s'. unfold scan_instance, getattr, mbind, Cmd_bind.
    by destruct Hempty as [->| [-> | ->]]. }
  split; [done |]. revert s.
  induction before as [|b before IH]; intros s; simpl.
  - unfold mbind, Cmd_bind. by rewrite Hskip.
  - unfold mbind, Cmd_bind in *.
    by destruct (scan_instance env field b s) as [[] s'|e s'].
Qed.

Lemma empty_attribute_is_skipped_witness :
  for_each ([Examples.post "a" (Examples.img_tag "1")] ++
            Examples.empty_post "b" :: [Examples.post "c" (Examples.img_tag "2")])
           (scan_instance (Examples.sound []) Examples.content_field)
           (start (Examples.store [])) =
  for_each ([Examples.post "a" (Examples.img_tag "1")] ++
            [Examples.post "c" (Examples.img_tag "2")])
           (scan_instance (Examples.sound []) Examples.content_field)
           (start (Examples.store [])).
Proof.
  apply (empty_attribute_is_skipped (Examples.sound []) Examples.content_field
           [Examples.post "a" (Examples.img_tag "1")]
           [Examples.post "c" (Examples.img_tag "2")]
           (Examples.empty_post "b") (start (Examples.store []))).
  right. right. reflexivity.
Defined.

Lemma outcome_Ok (g : gset Z * option Exception) (s s1 : State) :
  outcome g s = Ok tt s1 → g.2 = None ∧ s1 = after_scan s g.1 [] 0.
Proof. unfold outcome. destruct g.2; [done |]. by intros [= <-]. Qed.

Lemma outcome_Raise (g : gset Z * option Exception) (s s' : State)
    (e : Exception) :
  outcome g s = Raise (A := unit) e s' →
  g.2 = Some e ∧ s' = after_scan s g.1 [] 0.
Proof. unfold outcome. destruct g.2; [|done]. by intros [= <- <-]. Qed.

Lemma gathered_instances_stop (env : Env) (name : string)
    (before after : list Instance) (instance : Instance) (e : Exception) :
  (gathered_instances env name before).2 = None →
  (gathered_instance env name instance).2 = Some e →
  gathered_instances env name (before ++ instance :: after) =
  ((gathered_instances env name before).1 ∪
   (gathered_instance env name instance).1, Some e).
Proof.
  intros Hbefore Hraise.
  induction before as [|b before IH]; cbn [app gathered_instances] in *.
  - destruct (gathered_instance env name instance) as [ids e'].
    simpl in *. subst e'. by rewrite (left_id_L ∅ (∪)).
  - destruct (gathered_instance env name b) as [ids [e'|]]; [done |].
    destruct (gathered_instances env name before) as [ids' e'].
    simpl in Hbefore. subst e'. rewrite (IH eq_refl). simpl.
    by rewrite (assoc_L (∪)).
Qed.

(** What the [try] block of one attribute has gathered when it raises is
    what the attribute contributes to the used set. *)
Lemma loop_raises_gathered (env : Env) (model : Model) (field : Field)
    (s : State) (e : Exception) (s' : State) :
  loop_raises env model field s e s' →
  (gathered_field env model field).2 = Some e ∧
  s' = after_scan s (field_ids env model field) [] 0.
Proof.
  unfold field_ids, gathered_field.
  intros [[Hobj ->] | (before & instance & after & s1 & Hobj & Hbefore & Hraise)];
    rewrite Hobj; [by rewrite after_scan_id |].
  rewrite scan_instances in Hbefore. rewrite scan_instance_spec in Hraise.
  apply outcome_Ok in Hbefore as [Hb ->].
  apply outcome_Raise in Hraise as [Hi ->].
  rewrite (gathered_instances_stop env _ before after instance e Hb Hi).
  simpl. by rewrite after_scan_twice.
Qed.

(** C2, as the code has it.  The [try] encloses the whole loop over the
    instances of one attribute.  When iterating the instances raises, or
    the loop body raises at an instance (reading the attribute raises, or
    [int] refuses a digit run), the loop ends there: [scan_field] returns
    in the state the exception was raised in, with a warning naming the
    model and the attribute written after it.  The ids gathered until then
    are kept, the instances listed after the failing one are not read, and
    the scan goes on with the next attribute and the next model: the scan
    loop as a whole never raises. *)
Theorem read_error_ends_the_attribute_loop (env : Env) (model : Model)
    (field : Field) (e : Exception) (s s' : State) :
  loop_raises env model field s e s' →
  scan_field env model field s =
    write WARNING ("Error checking " +:+ model_name model +:+ "." +:+
                   field_name field +:+ ": " +:+ e) s' ∧
  world s' = world s ∧
  stdout s' = stdout s ∧
  used_image_ids s' = used_image_ids s ∪ field_ids env model field ∧
  raised (scan_field env model field s) = None ∧
  (∀ models s0, raised (for_each models (scan_model env) s0) = None).
Proof.
  intros Hraise.
  destruct (loop_raises_gathered env model field s e s' Hraise) as [Hg ->].
  split_and!.
  - rewrite scan_field_spec. unfold field_lines. rewrite Hg.
    unfold write, modify, after_scan, error_line. simpl.
    by rewrite app_nil_r, !Nat.add_0_r.
  - done.
  - simpl. by rewrite app_nil_r.
  - done.
  - by rewrite scan_field_spec.
  - intros models s0. by rewrite scan_models.
Qed.

Lemma read_error_ends_the_attribute_loop_witness :
  let model := Examples.BlogPost
                 [Examples.post "a" (Examples.img_tag "1");
                  Examples.broken_post "b";
                  Examples.post "c" (Examples.img_tag "2")] in
  let s := start (Examples.store []) in
  scan_field (Examples.sound [model]) model Examples.content_field s =
  write WARNING "Error checking BlogPost.content: invalid continuation byte"
        (after_scan s {[1]} [] 0).
Proof.
  intros model s.
  refine (proj1 (read_error_ends_the_attribute_loop
            (Examples.sound [model]) model Examples.content_field
            "invalid continuation byte" s (after_scan s {[1]} [] 0) _)).
  right. exists [Examples.post "a" (Examples.img_tag "1")],
    (Examples.broken_post "b"), [Examples.post "c" (Examples.img_tag "2")],
    (after_scan s {[1]} [] 0).
  split_and!.
  - reflexivity.
  - vm_compute. reflexivity.
  - vm_compute. reflexivity.
Defined.

(** C2, as stated, fails.  The first post cannot be read and the second
    references image 1.  The claim has only the first post's contribution
    left out, so that image 1 counts as used, as it does when the broken
    post is not there; the code warns, never reads the second post, and
    deletes image 1.  When it is the iteration that fails, no post is read
    at all and both text attributes get the warning. *)
Lemma read_error_counterexample :
  let good := Examples.post "a" (Examples.img_tag "1") in
  let w := Examples.store [Examples.image1] in
  let r := scan (Examples.sound [Examples.BlogPost
                                   [Examples.broken_post "b"; good]])
                false w in
  let r' := scan (Examples.sound
                    [Examples.BlogPost_unreadable "invalid continuation byte"])
                 false w in
  has_marker (Examples.sound []) (Examples.img_tag "1") 1 ∧
  editor_images
    (world (final (scan (Examples.sound [Examples.BlogPost [good]]) false w)))
  = [Examples.image1] ∧
  raised r = None ∧
  (WARNING, "Error checking BlogPost.content: invalid continuation byte")
    ∈ stdout (final r) ∧
  used_image_ids (final r) = ∅ ∧
  editor_images (world (final r)) = [] ∧
  filter (λ line : Line, bool_decide (line.1 = WARNING)) (stdout (final r')) =
    [ (WARNING, "Error checking BlogPost.title: invalid continuation byte");
      (WARNING, "Error checking BlogPost.content: invalid continuation byte") ] ∧
  editor_images (world (final r')) = [].
Proof.
  split_and!.
  - exists (text "<p><img src=x "), (text "1"), [1], (text "></p>").
    split; [reflexivity |]. split; [|reflexivity].
    split; [discriminate |]. apply ascii_digits. by repeat constructor.
  - vm_compute. reflexivity.
  - vm_compute. reflexivity.
  - vm_compute. repeat constructor.
  - vm_compute. reflexivity.
  - vm_compute. reflexivity.
  - vm_compute. reflexivity.
  - vm_compute. reflexivity.
Qed.

(** C3, as the code has it.  The deletion loop handles no error.  The
    unused images are deleted one after the other in listing order; the
    first file or row deletion that raises ends the command with that
    exception.  By then the images listed before have lost their rows and
    files, and a deletion line has been written for them and for the
    failing image; no other row is gone, neither that of the failing image
    nor those of the images listed after it; when it is the row deletion
    that raised, the file of the failing image is already gone.  No warning
    and no closing line is written. *)
Theorem deletion_error_ends_the_run (env : Env) (w : World)
    (before after : list EditorImage.t) (image : EditorImage.t) :
  query_runs env →
  unused_images env w = before ++ image :: after →
  Forall (deletable env) before →
  ¬ deletable env image →
  ∃ e s,
    scan env false w = Raise e s ∧
    stdout s =
      header env w ++
      found_unused_line (length (before ++ image :: after)) ::
      ((λ image, (PLAIN, deleting_line image)) <$> before ++ [image]) ∧
    editor_images (world s) =
      filter (λ row, EditorImage.id row ∉ EditorImage.id <$> before)
             (editor_images w) ∧
    match file_error env image with
    | Some e' => e = e' ∧ media (world s) = media w ∖ file_names before
    | None =>
        db_error env (EditorImage.id image) = Some e ∧
        media (world s) = media w ∖ file_names (before ++ [image])
    end.
Proof.
  intros Hq Hunused Hbefore Himage.
  destruct (purge_stops env before after image w Hbefore Himage) as [Hatt Hp].
  rewrite scan_unfold. cbv zeta. rewrite Hq, Hunused.
  replace (length (before ++ image :: after) =? 0)%nat with false
    by (symmetry; apply Nat.eqb_neq; rewrite length_app; simpl; lia).
  rewrite delete_loop_spec. cbv zeta. rewrite Hatt.
  unfold surveyed, say, in_world. simpl.
  destruct (file_error env image) as [e|] eqn:Hfile.
  - rewrite Hp. simpl. exists e. eexists. split; [reflexivity |]. simpl.
    rewrite deleted_all_rows, deleted_all_media.
    split_and!; try done. by rewrite <- app_assoc.
  - destruct Hp as (e & Hdb & Hp). rewrite Hp. simpl.
    exists e. eexists. split; [reflexivity |]. simpl.
    split_and!; try done.
    + by rewrite <- app_assoc.
    + unfold unlink. destruct (decide _); simpl; by rewrite deleted_all_rows.
    + rewrite file_names_app.
      replace (media (unlink image (deleted_all before w)))
        with (media (deleted image (deleted_all before w))) by done.
      rewrite deleted_media, deleted_all_media. set_solver.
Qed.

Lemma deletion_error_ends_the_run_witness :
  ∃ e s,
    scan (Examples.read_only []) false
         (Examples.store [Examples.image1; Examples.image2; Examples.image3])
    = Raise e s ∧
    editor_images (world s) =
      filter (λ row, EditorImage.id row ∉ EditorImage.id <$> [Examples.image3])
             [Examples.image1; Examples.image2; Examples.image3].
Proof.
  destruct (deletion_error_ends_the_run (Examples.read_only [])
              (Examples.store [Examples.image1; Examples.image2; Examples.image3])
              [Examples.image3] [Examples.image1] Examples.image2)
    as (e & s & Hrun & _ & Hrows & _).
  - reflexivity.
  - vm_compute. reflexivity.
  - constructor; [|constructor]. split; vm_compute; reflexivity.
  - intros [Hfile _]. vm_compute in Hfile. discriminate Hfile.
  - exists e, s. split; [exact Hrun | exact Hrows].
Defined.

(** C3, as stated, fails.  Two images are unused and the file of the
    newer one cannot be removed.  The claim has the row of that image
    deleted all the same, the other image deleted, and a warning reported;
    the code ends with the exception, both rows are still in the table, and
    no warning was written. *)
Lemma deletion_error_counterexample :
  let w := Examples.store [Examples.image1; Examples.image2] in
  let r := scan (Examples.read_only []) false w in
  unused_images (Examples.read_only []) w = [Examples.image2; Examples.image1] ∧
  raised r = Some "Permission denied" ∧
  editor_images (world (final r)) = [Examples.image1; Examples.image2] ∧
  Forall (λ line : Line, line.1 ≠ WARNING) (stdout (final r)).
Proof.
  split_and!.
  - vm_compute. reflexivity.
  - vm_compute. reflexivity.
  - vm_compute. reflexivity.
  - vm_compute. repeat constructor; discriminate.
Qed.

Global Instance newest_first_total : Total newest_first.
Proof. intros a b. unfold newest_first. lia. Qed.

Global Instance newest_first_trans : Transitive newest_first.
Proof. intros a b c. unfold newest_first. lia. Qed.



Lemma deleted_gone (image : EditorImage.t) (w : World) :
  (EditorImage.image image ∉ media w → media (deleted image w) = media w) ∧
  ((∀ row, row ∈ editor_images w → EditorImage.id row ≠ EditorImage.id image) →
   editor_images (deleted image w) = editor_images w).
Proof.
  split.
  - intros Hfile. rewrite deleted_media. apply set_eq. intros name.
    rewrite elem_of_difference, elem_of_file_names.
    setoid_rewrite elem_of_cons. setoid_rewrite elem_of_nil.
    split; [tauto |]. intros Hname. split; [done |].
    intros (_ & image' & [-> | []] & <-). done.
  - intros Hrow. rewrite deleted_rows. by apply filter_all, Forall_forall.
Qed.

Lemma deleted_twice (image : EditorImage.t) (w : World) :
  deleted image (deleted image w) = deleted image w.
Proof.
  destruct (deleted_gone image (deleted image w)) as [Hmedia Hrows].
  assert (media (deleted image (deleted image w)) = media (deleted image w))
    as Hm.
  { rewrite !deleted_media. set_solver. }
  assert (editor_images (deleted image (deleted image w)) =
          editor_images (deleted image w)) as Hr.
  { apply Hrows. intros row. rewrite deleted_rows, list_elem_of_filter. tauto. }
  destruct (deleted image (deleted image w)), (deleted image w).
  simpl in *. by subst.
Qed.

(** C8.  Deleting an image whose file or row is already gone does no
    harm.  As long as the storage and the database report no failure of
    their own for it, the loop body returns normally, writing its deletion
    line and no warning; a file that was already missing leaves the storage
    as it was, a row that was already missing leaves the table as it was,
    and deleting the same image once more changes nothing. *)
Theorem deleting_what_is_gone_is_a_noop (env : Env) (image : EditorImage.t)
    (s : State) :
  deletable env image →
  ∃ s', delete_image env image s = Ok tt s' ∧
        stdout s' = stdout s ++ [(PLAIN, deleting_line image)] ∧
        (EditorImage.image image ∉ media (world s) →
         media (world s') = media (world s)) ∧
        ((∀ row, row ∈ editor_images (world s) →
                 EditorImage.id row ≠ EditorImage.id image) →
         editor_images (world s') = editor_images (world s)) ∧
        delete_image env image s' =
          Ok tt (say s' [(PLAIN, deleting_line image)]).
Proof.
  intros [Hfile Hdb].
  rewrite delete_image_spec. cbv zeta. rewrite Hfile, Hdb.
  eexists. split; [reflexivity |]. simpl.
  destruct (deleted_gone image (world s)) as [Hmedia Hrows].
  split_and!; try done.
  rewrite delete_image_spec. cbv zeta. rewrite Hfile, Hdb. simpl.
  by rewrite deleted_twice.
Qed.

Lemma deleting_what_is_gone_is_a_noop_witness :
  ∃ s', delete_image (Examples.sound []) Examples.image2
          (start (Examples.store [Examples.image1])) = Ok tt s' ∧
        editor_images (world s') = [Examples.image1].
Proof.
  destruct (deleting_what_is_gone_is_a_noop (Examples.sound [])
              Examples.image2 (start (Examples.store [Examples.image1])))
    as (s' & Hrun & _ & _ & Hrows & _).
  - apply sound_deletable.
  - exists s'. split; [exact Hrun |]. apply Hrows.
    intros row Hrow. apply list_elem_of_singleton in Hrow as ->.
    vm_compute. discriminate.
Defined.

Lemma deleted_all_twice (images : list EditorImage.t) (w : World) :
  deleted_all images (deleted_all images w) = deleted_all images w.
Proof.
  assert (editor_images (deleted_all images (deleted_all images w)) =
          editor_images (deleted_all images w)) as Hr.
  { rewrite !deleted_all_rows, list_filter_filter.
    apply list_filter_iff. tauto. }
  assert (media (deleted_all images (deleted_all images w)) =
          media (deleted_all images w)) as Hm.
  { rewrite !deleted_all_media. set_solver. }
  destruct (deleted_all images (deleted_all images w)), (deleted_all images w).
  simpl in *. by subst.
Qed.

Lemma purge_same_errors (env env' : Env) (images : list EditorImage.t)
    (w : World) :
  storage_error env' = storage_error env →
  db_error env' = db_error env →
  purge env' images w = purge env images w.
Proof.
  intros Hstorage Hdb. revert w.
  induction images as [|image rest IH]; intros w; simpl; [done |].
  unfold file_error. rewrite Hstorage, Hdb, IH. done.
Qed.

(** C9, as the code has it.  The unused images are the stored images
    whose id is not in the used set, so as long as the query for them runs
    the used ids that belong to no stored image change nothing: two runs
    over the same table, with the same storage and database, whose queries
    run and whose used sets agree on the ids of the stored images find the
    same unused images, end in the same world and end the same way,
    whatever other ids either used set holds. *)
Theorem ids_of_no_stored_image_are_ignored (env env' : Env) (dry_run : bool)
    (w : World) :
  storage_error env' = storage_error env →
  db_error env' = db_error env →
  query_runs env →
  query_runs env' →
  (∀ image, image ∈ editor_images w →
            EditorImage.id image ∈ used_image_ids (final (scan env dry_run w)) ↔
            EditorImage.id image ∈ used_image_ids (final (scan env' dry_run w))) →
  unused_images env' w = unused_images env w ∧
  world (final (scan env' dry_run w)) = world (final (scan env dry_run w)) ∧
  raised (scan env' dry_run w) = raised (scan env dry_run w).
Proof.
  intros Hstorage Hdb Hq Hq' Hagree. rewrite !scan_used in Hagree.
  assert (unused_images env' w = unused_images env w) as Hunused.
  { rewrite !unused_images_listing. apply filter_ext_elem.
    intros image Himage. apply (proj1 (listing_elem _ _)) in Himage.
    specialize (Hagree image Himage). tauto. }
  split; [done |].
  destruct (scan_world env dry_run w Hq) as [-> ->].
  destruct (scan_world env' dry_run w Hq') as [-> ->].
  rewrite Hunused, (purge_same_errors env env' _ w Hstorage Hdb).
  done.
Qed.

Lemma ids_of_no_stored_image_are_ignored_witness :
  let w := Examples.store [Examples.image1; Examples.image2] in
  let env := Examples.sound [Examples.BlogPost
                               [Examples.post "a" (Examples.img_tag "2")]] in
  let env' := Examples.sound [Examples.BlogPost
                                [Examples.post "a" (Examples.img_tag "2");
                                 Examples.post "b" (Examples.img_tag "99")]] in
  99 ∈ used_image_ids (final (scan env' false w)) ∧
  world (final (scan env' false w)) = world (final (scan env false w)).
Proof.
  intros w env env'. split; [vm_compute; reflexivity |].
  refine (proj1 (proj2 (ids_of_no_stored_image_are_ignored
                          env env' false w _ _ _ _ _))).
  - reflexivity.
  - reflexivity.
  - vm_compute. reflexivity.
  - vm_compute. reflexivity.
  - intros image Himage.
    apply elem_of_cons in Himage as [-> | Himage];
      [|apply list_elem_of_singleton in Himage as ->];
      vm_compute; split; intros H; try exact H; discriminate H.
Defined.

(** C9, as stated, fails.  Image 1 is stored and unused.  A post holds a
    marker for the id 2^63, which no stored image bears; SQLite cannot
    bind it as a parameter of [id__in], so the query for the unused images
    raises [OverflowError] out of the command and nothing is deleted,
    whereas without that post image 1 is deleted.  A marker with a run of
    4301 digits, which no stored image bears either, ends the loop over
    the posts, so that image 2, referenced by a later post, is deleted. *)
Lemma id_of_no_stored_image_counterexample :
  let w := Examples.store [Examples.image1] in
  let env := Examples.sound [Examples.BlogPost []] in
  let env' := Examples.sound
                [Examples.BlogPost
                   [Examples.post "a" (Examples.img_tag MoreExamples.huge)]] in
  let w2 := Examples.store [Examples.image2] in
  let env2 := Examples.sound
                [Examples.BlogPost
                   [Examples.post "b" (Examples.img_tag "2")]] in
  let env2' := Examples.sound
                 [Examples.BlogPost
                    [Examples.post "a" Examples.long_marker;
                     Examples.post "b" (Examples.img_tag "2")]] in
  (scan env false w = Ok tt (final (scan env false w)) ∧
   editor_images (world (final (scan env false w))) = [] ∧
   used_image_ids (final (scan env' false w)) = {[2 ^ 63]} ∧
   raised (scan env' false w) =
     Some "Python int too large to convert to SQLite INTEGER" ∧
   raised (scan env' true w) =
     Some "Python int too large to convert to SQLite INTEGER" ∧
   editor_images (world (final (scan env' false w))) = [Examples.image1]) ∧
  (editor_images (world (final (scan env2 false w2))) = [Examples.image2] ∧
   raised (scan env2' false w2) = None ∧
   editor_images (world (final (scan env2' false w2))) = []).
Proof.
  split; split_and!; vm_compute; reflexivity.
Qed.

(** * Further properties of the command *)

(** ** The pattern *)

(** The groups [re.findall] returns for the pattern are exactly the digit
    runs of the markers in the text, a digit being any decimal digit of
    the Unicode database: every returned group is a non-empty run of
    decimal digits standing in a marker [data-image-id="<digits>"], and
    every such occurrence, wherever it stands, is returned. *)
Theorem findall_groups_are_the_marker_digits (env : Env) (content ds : Text) :
  ds ∈ Re.findall (unicode_decimal env) content ↔
  ∃ pre post values,
    content = pre ++ marker ds ++ post ∧ is_digits env ds values.
Proof.
  split; [apply findall_sound |].
  intros (pre & post & values & -> & [Hne Hvalues]%is_digits_spec).
  rewrite findall_marker; [|done |apply digits_values; by exists values].
  apply elem_of_app. right. apply list_elem_of_here.
Qed.

(** ** The scan loop *)

(** A run depends on its environment only through the ids the scan loop
    gathers, the lines it writes, the number of models it checks, and the
    failures of the query and of the two deletion primitives. *)
Lemma scan_same_survey (env env' : Env) (dry_run : bool) (w : World) :
  query_error env' = query_error env →
  storage_error env' = storage_error env →
  db_error env' = db_error env →
  scanned_ids env' = scanned_ids env →
  scan_lines env' (apps_models env') = scan_lines env (apps_models env) →
  checked_count (apps_models env') = checked_count (apps_models env) →
  scan env' dry_run w = scan env dry_run w.
Proof.
  intros Hquery Hstorage Hdb Hids Hlines Hcount.
  assert (∀ images, attempted env' images = attempted env images) as Hatt.
  { intros images. induction images as [|image rest IH]; simpl; [done |].
    unfold file_error. by rewrite Hstorage, Hdb, IH. }
  rewrite !scan_unfold. cbv zeta.
  unfold unused_images, surveyed, header, bind_error.
  rewrite Hids, Hlines, Hcount, Hquery.
  destruct (decide (scanned_ids env = ∅)) as [Hempty|Hsome].
  - destruct (length _ =? 0)%nat; [done |]. destruct dry_run; [done |].
    rewrite !delete_loop_spec. cbv zeta.
    by rewrite Hatt, (purge_same_errors env env' _ _ Hstorage Hdb).
  - destruct (query_error env (scanned_ids env)); [done |].
    destruct (length _ =? 0)%nat; [done |]. destruct dry_run; [done |].
    rewrite !delete_loop_spec. cbv zeta.
    by rewrite Hatt, (purge_same_errors env env' _ _ Hstorage Hdb).
Qed.

Lemma gathered_same_values (env env' : Env) (field : Field)
    (fields : list Field) (objects objects' : list Instance) :
  unicode_decimal env' = unicode_decimal env →
  field ∈ fields → is_text_field field = true →
  Forall2 (same_text_values fields) objects objects' →
  gathered_instances env' (field_name field) objects' =
  gathered_instances env (field_name field) objects.
Proof.
  intros Hnd Hfield Htext Hsame.
  assert (∀ groups, gathered_ints env' groups = gathered_ints env groups)
    as Hints.
  { intros groups. induction groups as [|ds rest IH]; cbn [gathered_ints];
      [done |].
    unfold int_value. by rewrite IH, Hnd. }
  induction Hsame as [|i i' objects objects' Hi _ IH];
    cbn [gathered_instances]; [done |].
  unfold gathered_instance, read, gathered_value.
  rewrite <- (Hi field Hfield Htext), IH, Hnd.
  destruct (default _ (i !! field_name field)) as [v|e]; [|done].
  by rewrite Hints.
Qed.

Lemma same_text_attributes_survey (env env' : Env) (model model' : Model) :
  unicode_decimal env' = unicode_decimal env →
  same_text_attributes model model' →
  model_ids env' model' = model_ids env model ∧
  model_lines env' model' = model_lines env model ∧
  model_counts model' = model_counts model.
Proof.
  intros Hnd (Hname & Hfields & Hobjects).
  assert (text_fields model' = text_fields model) as Htf
    by (unfold text_fields; by rewrite Hfields).
  assert (∀ field, field ∈ text_fields model →
            gathered_field env' model' field = gathered_field env model field)
    as Hfield.
  { intros field [Hin Htext]%elem_of_text_fields.
    unfold gathered_field. unfold same_fetch in Hobjects.
    destruct (model_objects model) as [objects|e],
      (model_objects model') as [objects'|e']; try done.
    - by eapply gathered_same_values.
    - by subst. }
  unfold model_ids, model_lines, model_counts. rewrite Htf.
  assert (field_ids env' model' <$> text_fields model =
          field_ids env model <$> text_fields model) as ->.
  { apply list_fmap_ext. intros _ field Hin%list_elem_of_lookup_2.
    unfold field_ids. by rewrite Hfield. }
  assert (field_lines env' model' <$> text_fields model =
          field_lines env model <$> text_fields model) as ->.
  { apply list_fmap_ext. intros _ field Hin%list_elem_of_lookup_2.
    unfold field_lines, error_line. by rewrite Hfield, Hname. }
  by rewrite Hname.
Qed.

Lemma same_text_attributes_refl (model : Model) :
  same_text_attributes model model.
Proof.
  split_and!; [done | done |]. unfold same_fetch.
  destruct (model_objects model) as [instances|e]; [|done].
  apply Forall2_same_length_lookup. split; [done |].
  intros i x y Hx Hy. rewrite Hx in Hy. injection Hy as <-. done.
Qed.

(** The loop body reads no attribute but the text fields: two catalogs
    whose models have the same names and fields, and for each of which
    iterating the instances fails alike or yields instances that hold the
    same in every [TextField] and [CharField] attribute, give the same
    run, output and final world alike, whatever the instances hold in
    their other attributes. *)
Theorem only_text_attributes_are_read (env env' : Env) (dry_run : bool)
    (w : World) :
  unicode_decimal env' = unicode_decimal env →
  query_error env' = query_error env →
  storage_error env' = storage_error env →
  db_error env' = db_error env →
  Forall2 same_text_attributes (apps_models env) (apps_models env') →
  scan env' dry_run w = scan env dry_run w.
Proof.
  intros Hnd Hquery Hstorage Hdb Hsame.
  assert (model_ids env' <$> apps_models env' =
            model_ids env <$> apps_models env ∧
          model_lines env' <$> apps_models env' =
            model_lines env <$> apps_models env ∧
          checked_count (apps_models env') = checked_count (apps_models env))
    as (Hids & Hlines & Hcount).
  { induction Hsame as [|m m' ms ms' Hm _ (IH1 & IH2 & IH3)]; [done |].
    destruct (same_text_attributes_survey env env' m m' Hnd Hm)
      as (Hi & Hl & Hc).
    rewrite !fmap_cons, Hi, Hl, IH1, IH2. unfold checked_count in *.
    simpl. by rewrite Hc, IH3. }
  apply scan_same_survey; try done.
  - unfold scanned_ids. by rewrite Hids.
  - unfold scan_lines. by rewrite Hlines.
Qed.

Lemma only_text_attributes_are_read_witness :
  let w := Examples.store [Examples.image1; Examples.image2] in
  scan (Examples.sound [Examples.BlogPost
          [MoreExamples.post_by "ann" "a" (Examples.img_tag "2")]]) false w =
  scan (Examples.sound [Examples.BlogPost
          [Examples.post "a" (Examples.img_tag "2")]]) false w.
Proof.
  intros w.
  apply (only_text_attributes_are_read
           (Examples.sound [Examples.BlogPost
              [Examples.post "a" (Examples.img_tag "2")]])
           (Examples.sound [Examples.BlogPost
              [MoreExamples.post_by "ann" "a" (Examples.img_tag "2")]])
           false w).
  - reflexivity.
  - reflexivity.
  - reflexivity.
  - reflexivity.
  - constructor; [|constructor]. split; [reflexivity |].
    split; [reflexivity |]. constructor; [|constructor].
    intros field Hfield Htext. simpl in Hfield.
    repeat (apply elem_of_cons in Hfield as [-> | Hfield];
            [try discriminate Htext; vm_compute; reflexivity |]).
    by apply elem_of_nil in Hfield.
Defined.

(** A model without a [TextField] or [CharField] is passed over: it is not
    counted, no line is written for it and none of its instances is read,
    so the run is the one over the catalog without that model. *)
Theorem model_without_text_field_is_skipped (env : Env)
    (before after : list Model) (model : Model) (dry_run : bool) (w : World) :
  Forall (λ field, is_text_field field = false) (model_fields model) →
  scan (with_models env (before ++ model :: after)) dry_run w =
  scan (with_models env (before ++ after)) dry_run w.
Proof.
  intros Hnone.
  assert (text_fields model = []) as Htf.
  { unfold text_fields. induction Hnone as [|f fs Hf _ IH]; simpl; [done |].
    by rewrite Hf. }
  assert (∀ env0, model_ids env0 model = ∅ ∧ model_lines env0 model = [])
    as Hmodel.
  { intros env0. unfold model_ids, model_lines. by rewrite Htf. }
  assert (model_counts model = 0%nat) as Hcount
    by (unfold model_counts; by rewrite Htf).
  set (env1 := with_models env (before ++ model :: after)).
  set (env2 := with_models env (before ++ after)).
  assert (∀ models : list Model,
            model_ids env2 <$> models = model_ids env1 <$> models ∧
                    model_lines env2 <$> models = model_lines env1 <$> models)
    as Hsame.
  { intros models. split; apply list_fmap_ext; intros _ m _;
      by destruct (same_text_attributes_survey env1 env2 m m eq_refl
                     (same_text_attributes_refl m)) as (? & ? & ?). }
  apply scan_same_survey; simpl; try done.
  - unfold scanned_ids. simpl. rewrite !fmap_app, !union_list_app_L. simpl.
    destruct (Hmodel env1) as [-> _].
    rewrite (left_id_L ∅ (∪)).
    by rewrite (proj1 (Hsame before)), (proj1 (Hsame after)).
  - unfold scan_lines. simpl. rewrite !fmap_app, !concat_app. simpl.
    destruct (Hmodel env1) as [_ ->]. simpl.
    by rewrite (proj2 (Hsame before)), (proj2 (Hsame after)).
  - unfold checked_count. rewrite !foldr_app. simpl. by rewrite Hcount.
Qed.

Lemma model_without_text_field_is_skipped_witness :
  let w := Examples.store [Examples.image1; Examples.image2] in
  let blog := Examples.BlogPost [Examples.post "a" (Examples.img_tag "2")] in
  scan (with_models (Examples.sound []) ([blog] ++ MoreExamples.Vote :: []))
       false w =
  scan (with_models (Examples.sound []) ([blog] ++ [])) false w.
Proof.
  intros w blog.
  apply (model_without_text_field_is_skipped (Examples.sound [])
           [blog] [] MoreExamples.Vote false w).
  constructor; [reflexivity | constructor].
Defined.

(** When nothing raises during the scan (the instances of every model
    with a text field are fetched, no read of a text attribute raises and
    no marker has a run of more than 4300 digits), the used ids are those
    with a marker in some text attribute of some instance of some
    registered model; in which order the models, the attributes and the
    instances come makes no difference. *)
Theorem used_ids_without_read_errors (env : Env) (dry_run : bool) (w : World)
    (z : Z) :
  error_free env →
  z ∈ used_image_ids (final (scan env dry_run w)) ↔
  ∃ model field instances instance content,
    model ∈ apps_models env ∧
    field ∈ model_fields model ∧ is_text_field field = true ∧
    model_objects model = Fetched instances ∧
    instance ∈ instances ∧
    instance !! field_name field = Some (AttrValue (PyStr content)) ∧
    has_marker env content z.
Proof.
  intros Hfree. rewrite scan_used. by apply scanned_ids_referenced.
Qed.

Lemma used_ids_without_read_errors_witness :
  7 ∈ used_image_ids
        (final (scan (Examples.sound [Examples.BlogPost
                        [Examples.post "a" (text "<p>text</p>");
                         Examples.post "b" (Examples.img_tag "7")]])
                     true (Examples.store []))).
Proof.
  refine (proj2 (used_ids_without_read_errors
           (Examples.sound [Examples.BlogPost
              [Examples.post "a" (text "<p>text</p>");
               Examples.post "b" (Examples.img_tag "7")]])
           true (Examples.store []) 7 _) _).
  - apply plain_error_free. vm_compute. reflexivity.
  - eexists _, Examples.content_field, _,
      (Examples.post "b" (Examples.img_tag "7")), (Examples.img_tag "7").
    split_and!.
    + apply list_elem_of_here.
    + apply list_elem_of_further, list_elem_of_here.
    + reflexivity.
    + reflexivity.
    + apply list_elem_of_further, list_elem_of_here.
    + vm_compute. reflexivity.
    + exists (text "<p><img src=x "), (text "7"), [7], (text "></p>").
      split; [reflexivity |]. split; [|reflexivity].
      split; [discriminate |]. apply ascii_digits. by repeat constructor.
Defined.

(** ** What a run writes *)

Lemma scan_stdout (env : Env) (dry_run : bool) (w : World) :
  query_runs env →
  stdout (final (scan env dry_run w)) =
  header env w ++
  unused_report (length (unused_images env w)) ::
  closing_lines env dry_run (unused_images env w) w.
Proof.
  intros Hq. rewrite scan_unfold. cbv zeta. rewrite Hq.
  unfold unused_report, closing_lines.
  destruct (unused_images env w) as [|image rest]; [done |].
  cbn [length Nat.eqb]. set (unused := image :: rest).
  unfold dry_run_line. destruct dry_run.
  - cbn [final stdout say surveyed]. by rewrite <- !app_assoc.
  - rewrite delete_loop_spec. cbv zeta. cbn [world say surveyed].
    destruct (purge env unused w).2;
      cbn [final stdout say in_world surveyed];
      rewrite <- ?app_assoc; cbn [app]; by rewrite ?app_nil_r.
Qed.


Lemma listing_length (w : World) :
  length (listing w) = length (editor_images w).
Proof. unfold listing, objects_all. simpl. by rewrite merge_sort_Permutation. Qed.

Lemma unused_images_length (env : Env) (w : World) :
  length (unused_images env w) =
  length (filter (λ image, EditorImage.id image ∉ scanned_ids env)
                 (editor_images w)).
Proof.
  rewrite unused_images_listing. unfold listing, objects_all. simpl.
  by rewrite merge_sort_Permutation.
Qed.


(** When nothing raises during the scan, the query runs and every stored
    image is referenced, there is nothing to do: dry or not, and whatever
    the storage and the database would do on a deletion, the run returns
    after the summary, says that no unused image was found and leaves the
    world as it was. *)
Theorem nothing_unused_nothing_done (env : Env) (dry_run : bool) (w : World) :
  error_free env →
  query_runs env →
  (∀ image, image ∈ editor_images w → referenced env (EditorImage.id image)) →
  ∃ s, scan env dry_run w = Ok tt s ∧
       world s = w ∧
       stdout s = header env w ++ [(SUCCESS, "No unused images found!")].
Proof.
  intros Hfree Hq Hall.
  assert (unused_images env w = []) as Hnone.
  { apply no_elem_nil. intros image [Hin Hn]%unused_images_elem.
    apply Hn, scanned_ids_referenced; [done |]. by apply Hall. }
  rewrite scan_unfold. cbv zeta. rewrite Hq, Hnone. simpl. by eexists.
Qed.

Lemma nothing_unused_nothing_done_witness :
  ∃ s, scan (Examples.read_only [Examples.BlogPost
                                   [Examples.post "a" (Examples.img_tag "2")]])
            false (Examples.store [Examples.image2]) = Ok tt s ∧
       world s = Examples.store [Examples.image2].
Proof.
  assert (error_free (Examples.read_only
                        [Examples.BlogPost
                           [Examples.post "a" (Examples.img_tag "2")]]))
    as Hfree by (apply plain_error_free; vm_compute; reflexivity).
  destruct (nothing_unused_nothing_done
              (Examples.read_only [Examples.BlogPost
                                     [Examples.post "a" (Examples.img_tag "2")]])
              false (Examples.store [Examples.image2]))
    as (s & Hrun & Hworld & _).
  - exact Hfree.
  - vm_compute. reflexivity.
  - intros image Himage. apply list_elem_of_singleton in Himage as ->.
    apply scanned_ids_referenced; [exact Hfree |]. vm_compute. reflexivity.
  - by exists s.
Defined.

(** A dry run tells what a deleting run does.  When the query runs, there
    are unused images and their deletions go through, the dry run lists,
    after the same summary, the very images for which the deleting run
    writes a deletion line, in the same order, and those are the rows the
    deleting run removes. *)
Theorem dry_run_lists_what_is_deleted (env : Env) (w : World) :
  let unused := unused_images env w in
  query_runs env →
  unused ≠ [] →
  Forall (deletable env) unused →
  stdout (final (scan env true w)) =
    header env w ++ found_unused_line (length unused) :: dry_run_line ::
    ((λ image, (PLAIN, would_delete_line image)) <$> unused) ∧
  stdout (final (scan env false w)) =
    header env w ++ found_unused_line (length unused) ::
    ((λ image, (PLAIN, deleting_line image)) <$> unused) ++
    [success_line (length unused)] ∧
  (∀ row, row ∈ editor_images w →
          row ∈ editor_images (world (final (scan env false w))) ↔
          row ∉ unused).
Proof.
  intros unused Hq Hne Hall. subst unused.
  destruct (purge_deletable env _ w Hall) as [Hp Hatt].
  destruct (scan_deletable env w Hq Hall) as [_ Hw].
  rewrite !scan_stdout, Hw, deleted_all_rows by done.
  unfold unused_report, closing_lines.
  destruct (unused_images env w) as [|image rest] eqn:Hunused; [done |].
  rewrite Hatt, Hp. cbn [length Nat.eqb snd]. split_and!; try done.
  intros row Hrow. rewrite list_elem_of_filter, <- Hunused. split.
  - intros [Hid _] Hin. apply Hid, list_elem_of_fmap. by exists row.
  - intros Hout. split; [|done].
    intros (row' & Heq & [_ Hn]%unused_images_elem)%list_elem_of_fmap.
    apply Hout, unused_images_elem. split; [done |]. by rewrite Heq.
Qed.

Lemma dry_run_lists_what_is_deleted_witness :
  let env := Examples.sound [Examples.BlogPost
                               [Examples.post "a" (Examples.img_tag "2")]] in
  let w := Examples.store [Examples.image1; Examples.image2; Examples.image3] in
  stdout (final (scan env false w)) =
    header env w ++ found_unused_line (length (unused_images env w)) ::
    ((λ image, (PLAIN, deleting_line image)) <$> unused_images env w) ++
    [success_line (length (unused_images env w))].
Proof.
  intros env w.
  refine (proj1 (proj2 (dry_run_lists_what_is_deleted env w _ _ _))).
  - vm_compute. reflexivity.
  - vm_compute. discriminate.
  - apply Forall_forall. intros image _. apply sound_deletable.
Defined.

(** The count in the closing line of a completed deleting run is the
    number of rows the run removed from the table. *)
Theorem reported_count_is_rows_removed (env : Env) (w : World) (s : State) :
  scan env false w = Ok tt s →
  ∃ n, length (editor_images w) = (length (editor_images (world s)) + n)%nat ∧
       last (stdout s) =
         Some (if (n =? 0)%nat then (SUCCESS, "No unused images found!")
               else success_line n).
Proof.
  intros Hrun. exists (length (unused_images env w)).
  pose proof (returned_query_runs env false w s Hrun) as Hq.
  destruct (scan_world env false w Hq) as [Hw Hr].
  pose proof (scan_stdout env false w Hq) as Hout.
  rewrite Hrun in Hw, Hr, Hout. cbn [final raised] in Hw, Hr, Hout.
  symmetry in Hr. apply purge_returns in Hr as Hall.
  destruct (purge_deletable env _ w Hall) as [Hp Hatt].
  rewrite Hp in Hw. simpl in Hw. split.
  - rewrite Hw, deleted_all_rows, unused_images_length.
    rewrite <- (filter_app_complement
                  (λ row, EditorImage.id row ∉ EditorImage.id <$> unused_images env w)
                  (editor_images w)) at 1.
    rewrite length_app. f_equal. f_equal.
    apply filter_ext_elem. intros row Hrow. split.
    + intros Hin Hn. apply Hin. intros (row' & Heq & [_ Hn']%unused_images_elem)%list_elem_of_fmap.
      apply Hn'. by rewrite <- Heq.
    + intros Hn Hin. apply Hin, list_elem_of_fmap. exists row.
      split; [done |]. by apply unused_images_elem.
  - rewrite Hout. unfold unused_report, closing_lines.
    destruct (unused_images env w) as [|image rest] eqn:Hunused.
    + cbn [length Nat.eqb]. by rewrite last_snoc.
    + rewrite Hp, Hatt. cbn [length Nat.eqb snd].
      rewrite app_comm_cons, app_assoc. by rewrite last_snoc.
Qed.

Lemma reported_count_is_rows_removed_witness :
  let r := scan (Examples.sound []) false
                (Examples.store [Examples.image1; Examples.image2]) in
  ∃ n, (2 = length (editor_images (world (final r))) + n)%nat ∧
       last (stdout (final r)) =
         Some (if (n =? 0)%nat then (SUCCESS, "No unused images found!")
               else success_line n).
Proof.
  intros r.
  apply (reported_count_is_rows_removed (Examples.sound [])
           (Examples.store [Examples.image1; Examples.image2]) (final r)).
  apply returned_of_raised. vm_compute. reflexivity.
Defined.

(** After a completed deleting run the file of every removed row is gone
    from the storage.  Files are addressed by name: a row that is kept
    loses its file when a removed row names the same file. *)
Theorem files_of_removed_rows_are_gone (env : Env) (w : World) (s : State)
    (image : EditorImage.t) :
  scan env false w = Ok tt s →
  image ∈ editor_images w →
  image ∉ editor_images (world s) →
  EditorImage.image image ≠ "" →
  EditorImage.image image ∉ media (world s).
Proof.
  intros Hrun Himage Hgone Hname.
  pose proof (returned_query_runs env false w s Hrun) as Hq.
  destruct (scan_world env false w Hq) as [Hw Hr].
  rewrite Hrun in Hw, Hr. simpl in Hw, Hr.
  symmetry in Hr. apply purge_returns in Hr as Hall.
  destruct (purge_deletable env _ w Hall) as [Hp _].
  rewrite Hp in Hw. simpl in Hw.
  rewrite Hw, deleted_all_rows, list_elem_of_filter in Hgone.
  rewrite Hw, deleted_all_media, elem_of_difference, elem_of_file_names.
  intros [_ Hkeep]. apply Hkeep. split; [done |]. exists image.
  split; [|done]. apply unused_images_elem. split; [done |].
  intros Hused. apply Hgone. split; [|done].
  intros (row & Heq & [_ Hn]%unused_images_elem)%list_elem_of_fmap.
  apply Hn. by rewrite <- Heq.
Qed.

Lemma files_of_removed_rows_are_gone_witness :
  let env := Examples.sound [Examples.BlogPost
                               [Examples.post "a" (Examples.img_tag "2")]] in
  let w := Examples.store [MoreExamples.shared1; MoreExamples.shared2] in
  MoreExamples.shared2 ∈ editor_images (world (final (scan env false w))) ∧
  EditorImage.image MoreExamples.shared2
    ∉ media (world (final (scan env false w))).
Proof.
  intros env w. split.
  - vm_compute. repeat constructor.
  - apply (files_of_removed_rows_are_gone env w (final (scan env false w))
             MoreExamples.shared1).
    + apply returned_of_raised. vm_compute. reflexivity.
    + apply list_elem_of_here.
    + vm_compute. intros Hin.
      apply list_elem_of_singleton in Hin. discriminate Hin.
    + discriminate.
Defined.

(** A deletion loop that went through can be run again over the same,
    now stale, listing, as a second scan that overlapped the first would;
    it goes through again and changes nothing. *)
Corollary stale_listing_is_harmless (env : Env)
    (images : list EditorImage.t) (s s1 : State) :
  for_each images (delete_image env) s = Ok tt s1 →
  ∃ s2, for_each images (delete_image env) s1 = Ok tt s2 ∧
        world s2 = world s1.
Proof.
  rewrite !delete_loop_spec. cbv zeta.
  destruct (purge env images (world s)).2 as [e|] eqn:Hend; [done |].
  apply purge_returns in Hend as Hall.
  destruct (purge_deletable env images (world s) Hall) as [Hp _].
  rewrite Hp. simpl. intros [= <-]. simpl.
  destruct (purge_deletable env images (deleted_all images (world s)) Hall)
    as [Hp' _].
  rewrite Hp'. simpl. eexists. split; [reflexivity |]. simpl.
  apply deleted_all_twice.
Qed.

Lemma stale_listing_is_harmless_witness :
  let s := start (Examples.store [Examples.image1; Examples.image2]) in
  let s1 := final (for_each [Examples.image2]
                     (delete_image (Examples.sound [])) s) in
  ∃ s2, for_each [Examples.image2] (delete_image (Examples.sound [])) s1
        = Ok tt s2 ∧
        world s2 = world s1.
Proof.
  intros s s1.
  apply (stale_listing_is_harmless (Examples.sound []) [Examples.image2] s s1).
  apply returned_of_raised. vm_compute. reflexivity.
Defined.

(** ** Where the scan loop raises *)

Section RaiseFacts.

Variable env : Env.

Local Arguments int_max_str_digits : simpl never.

Local Abbreviation short := (λ ds : Text, (length ds ≤ int_max_str_digits)%nat).

Lemma gathered_ints_stop (g1 g2 : list Text) (ds : Text) :
  Forall short g1 →
  (int_max_str_digits < length ds)%nat →
  gathered_ints env (g1 ++ ds :: g2) =
  (list_to_set (int_value env <$> g1), Some (int_error ds)).
Proof.
  intros H1 Hds. induction H1 as [|d g1 Hd _ IH]; cbn [app gathered_ints].
  - by rewrite decide_True.
  - cbv beta in Hd. rewrite decide_False by lia. by rewrite IH.
Qed.

Lemma gathered_ints_raises (groups : list Text) (e : Exception) :
  (gathered_ints env groups).2 = Some e →
  ∃ g1 ds g2, groups = g1 ++ ds :: g2 ∧ Forall short g1 ∧
              (int_max_str_digits < length ds)%nat ∧ e = int_error ds.
Proof.
  induction groups as [|d rest IH]; cbn [gathered_ints]; [done |].
  destruct (decide (int_max_str_digits < length d)%nat) as [Hlong|Hshort].
  - intros [= <-]. by exists [], d, rest.
  - destruct (gathered_ints env rest) as [ids e'] eqn:Hg. simpl.
    intros ->. destruct (IH eq_refl) as (g1 & ds & g2 & -> & H1 & Hds & ->).
    exists (d :: g1), ds, g2. split_and!; try done.
    constructor; [cbv beta; lia | done].
Qed.

Lemma gathered_instances_raises (name : string) (instances : list Instance)
    (e : Exception) :
  (gathered_instances env name instances).2 = Some e →
  ∃ before instance after,
    instances = before ++ instance :: after ∧
    (gathered_instances env name before).2 = None ∧
    (gathered_instance env name instance).2 = Some e.
Proof.
  induction instances as [|i rest IH]; cbn [gathered_instances]; [done |].
  destruct (gathered_instance env name i) as [ids [e'|]] eqn:Hi.
  - simpl. intros [= <-]. exists [], i, rest. by rewrite Hi.
  - destruct (gathered_instances env name rest) as [ids' e'] eqn:Hg. simpl.
    intros ->.
    destruct (IH eq_refl) as (before & instance & after & -> & Hb & Hraise).
    exists (i :: before), instance, after. split_and!; try done.
    cbn [gathered_instances]. rewrite Hi.
    by destruct (gathered_instances env name before).
Qed.

(** A [try] block that gathered an exception is one whose loop raised. *)
Lemma gathered_loop_raises (model : Model) (field : Field) (e : Exception)
    (s : State) :
  (gathered_field env model field).2 = Some e →
  ∃ s', loop_raises env model field s e s'.
Proof.
  unfold gathered_field, loop_raises.
  destruct (model_objects model) as [instances|e'] eqn:Hobj.
  - intros (before & instance & after & -> & Hb & Hi)%gathered_instances_raises.
    exists (after_scan (after_scan s (gathered_instances env (field_name field)
                                        before).1 [] 0)
                       (gathered_instance env (field_name field) instance).1
                       [] 0).
    right. exists before, instance, after,
      (after_scan s (gathered_instances env (field_name field) before).1 [] 0).
    split_and!; [done | |].
    + rewrite scan_instances. unfold outcome. by rewrite Hb.
    + rewrite scan_instance_spec. unfold outcome. by rewrite Hi.
  - simpl. intros [= ->]. exists s. by left.
Qed.

End RaiseFacts.

(** The loop body raises in two ways only: reading the attribute raises,
    in the state the body was entered in; or the attribute holds a text in
    which the first digit run of more than 4300 digits that [re.findall]
    returns makes [int] raise, after the ids of the runs before it were
    added. *)
Theorem loop_body_raises (env : Env) (field : Field) (instance : Instance)
    (s s' : State) (e : Exception) :
  scan_instance env field instance s = Raise e s' ↔
  (instance !! field_name field = Some (AttrRaises e) ∧ s' = s) ∨
  ∃ content g1 ds g2,
    instance !! field_name field = Some (AttrValue (PyStr content)) ∧
    Re.findall (unicode_decimal env) content = g1 ++ ds :: g2 ∧
    Forall (λ d, (length d ≤ int_max_str_digits)%nat) g1 ∧
    (int_max_str_digits < length ds)%nat ∧
    e = int_error ds ∧
    s' = after_scan s (list_to_set (int_value env <$> g1)) [] 0.
Proof.
  rewrite scan_instance_spec. unfold gathered_instance, read. split.
  - intros [He ->]%outcome_Raise.
    destruct (instance !! field_name field) as [[[|content]|e']|] eqn:Hattr;
      simpl in *; try done.
    + right. unfold gathered_value in *.
      destruct (truthy (PyStr content)); [|done]. cbn [str] in *.
      apply gathered_ints_raises in He as Hd.
      destruct Hd as (g1 & ds & g2 & Hgroups & H1 & Hds & ->).
      exists content, g1, ds, g2. split_and!; try done.
      by rewrite Hgroups, gathered_ints_stop.
    + left. injection He as ->. by rewrite after_scan_id.
  - intros [[-> ->] | (content & g1 & ds & g2 & -> & Hgroups & H1 & Hds & -> & ->)];
      simpl.
    + unfold outcome. simpl. by rewrite after_scan_id.
    + unfold gathered_value. cbn [str].
      assert (truthy (PyStr content) = true) as ->.
      { destruct content; [|done]. by destruct g1. }
      rewrite Hgroups, gathered_ints_stop by done. done.
Qed.

(** ** The warnings of a run *)

Lemma model_lines_warning (env : Env) (model : Model) (line : Line) :
  line ∈ model_lines env model ∧ line.1 = WARNING ↔
  ∃ field e,
    field ∈ text_fields model ∧
    (gathered_field env model field).2 = Some e ∧
    line = error_line model field e.
Proof.
  unfold model_lines. split.
  - intros [Hin Hstyle].
    destruct (text_fields model) as [|f fs] eqn:Htf;
      [by apply elem_of_nil in Hin |].
    apply elem_of_cons in Hin as [-> | Hin]; [discriminate Hstyle |].
    apply elem_of_concat in Hin as (l & Hl & Hin).
    apply list_elem_of_fmap in Hl as (field & -> & Hfield).
    unfold field_lines in Hin.
    destruct (gathered_field env model field).2 as [e|] eqn:He;
      [|by apply elem_of_nil in Hin].
    apply list_elem_of_singleton in Hin as ->. by exists field, e.
  - intros (field & e & Hfield & He & ->). split; [|done].
    destruct (text_fields model) as [|f fs] eqn:Htf;
      [by apply elem_of_nil in Hfield |].
    apply elem_of_cons. right. apply elem_of_concat.
    exists (field_lines env model field). split.
    + apply list_elem_of_fmap. by exists field.
    + unfold field_lines. rewrite He. apply list_elem_of_here.
Qed.

Lemma scan_lines_warning (env : Env) (line : Line) :
  line ∈ scan_lines env (apps_models env) ∧ line.1 = WARNING ↔
  ∃ model field e s s',
    model ∈ apps_models env ∧
    field ∈ model_fields model ∧ is_text_field field = true ∧
    loop_raises env model field s e s' ∧
    line = error_line model field e.
Proof.
  unfold scan_lines. rewrite elem_of_concat. split.
  - intros [(l & Hl & Hin) Hstyle].
    apply list_elem_of_fmap in Hl as (model & -> & Hmodel).
    destruct (proj1 (model_lines_warning env model line) (conj Hin Hstyle))
      as (field & e & [Hf Ht]%elem_of_text_fields & He & ->).
    destruct (gathered_loop_raises env model field e (start {| editor_images := []; media := ∅ |}) He)
      as [s' Hraise].
    by exists model, field, e, (start {| editor_images := []; media := ∅ |}), s'.
  - intros (model & field & e & s & s' & Hmodel & Hf & Ht & Hraise & ->).
    destruct (loop_raises_gathered env model field s e s' Hraise) as [He _].
    destruct (proj2 (model_lines_warning env model (error_line model field e)))
      as [Hin Hstyle].
    { exists field, e. split_and!; try done. by apply elem_of_text_fields. }
    split; [|done]. exists (model_lines env model). split; [|done].
    apply list_elem_of_fmap. by exists model.
Qed.

(** The warnings of a run are the errors of its scan.  Apart from the
    notice a dry run gives when it found unused images, a line is written
    as a warning exactly when it reports, for a text attribute of a
    registered model, the exception that ended the loop over the
    instances for that attribute (raised by the iteration, by the read of
    the attribute or by [int]); there is one such line for each attribute
    whose loop ended that way, and deletions never add one. *)
Theorem warnings_are_the_read_errors (env : Env) (dry_run : bool) (w : World)
    (line : Line) :
  line ∈ stdout (final (scan env dry_run w)) ∧ line.1 = WARNING ↔
  (line = dry_run_line ∧ dry_run = true ∧ query_runs env ∧
   unused_images env w ≠ []) ∨
  ∃ model field e s s',
    model ∈ apps_models env ∧
    field ∈ model_fields model ∧ is_text_field field = true ∧
    loop_raises env model field s e s' ∧
    line = error_line model field e.
Proof.
  rewrite <- scan_lines_warning. unfold query_runs.
  destruct (bind_error env (scanned_ids env)) as [e|] eqn:Hq.
  { rewrite (scan_query_raises env dry_run w e Hq).
    cbn [final stdout surveyed]. unfold header.
    rewrite !elem_of_app, !elem_of_cons. split.
    - intros [Hin Hstyle]. right. split; [|done].
      destruct Hin as [Ha | [Hin | Hc]]; [| done |].
      + destruct Ha as [-> | [-> | []%elem_of_nil]]; discriminate Hstyle.
      + destruct Hc as [-> | [-> | []%elem_of_nil]]; discriminate Hstyle.
    - intros [(_ & _ & ? & _) | [Hin Hstyle]]; [done |]. split; [|done].
      right. by left. }
  rewrite (scan_stdout env dry_run w Hq).
  unfold header, unused_report, closing_lines.
  rewrite !elem_of_app, !elem_of_cons. split.
  - intros [Hin Hstyle].
    destruct Hin as [[Ha | [Hin | Hc]] | [-> | Hin]].
    + destruct Ha as [-> | [-> | []%elem_of_nil]]; discriminate Hstyle.
    + by right.
    + destruct Hc as [-> | [-> | []%elem_of_nil]]; discriminate Hstyle.
    + unfold found_unused_line in Hstyle.
      destruct (length _ =? 0)%nat; discriminate Hstyle.
    + destruct (unused_images env w) as [|image rest] eqn:Hunused;
        [by apply elem_of_nil in Hin |].
      destruct dry_run.
      * apply elem_of_cons in Hin as [-> | Hin]; [by left |].
        apply list_elem_of_fmap in Hin as (? & -> & _). discriminate Hstyle.
      * apply elem_of_app in Hin as [Hin | Hin].
        -- apply list_elem_of_fmap in Hin as (? & -> & _). discriminate Hstyle.
        -- destruct (purge env (image :: rest) w).2;
             [by apply elem_of_nil in Hin |].
           apply list_elem_of_singleton in Hin as ->. discriminate Hstyle.
  - intros [(-> & -> & _ & Hne) | [Hin Hstyle]].
    + split; [|done]. right. right.
      destruct (unused_images env w); [done |]. apply list_elem_of_here.
    + split; [|done]. left. right. by left.
Qed.

(** ** The query for the unused images *)

(** When the database refuses the used ids as parameters of the query,
    the run ends there with that exception, dry or not: the first part of
    the summary is written, nothing is reported as unused and nothing is
    deleted. *)
Theorem query_error_ends_the_run (env : Env) (dry_run : bool) (w : World)
    (e : Exception) :
  bind_error env (used_image_ids (final (scan env dry_run w))) = Some e →
  scan env dry_run w = Raise e (final (scan env dry_run w)) ∧
  world (final (scan env dry_run w)) = w ∧
  stdout (final (scan env dry_run w)) = header env w.
Proof.
  rewrite scan_used. intros Hq.
  by rewrite (scan_query_raises env dry_run w e Hq).
Qed.

Lemma query_error_ends_the_run_witness :
  let env := Examples.sound
               [Examples.BlogPost
                  [Examples.post "a" (Examples.img_tag MoreExamples.huge)]] in
  let w := Examples.store [Examples.image1] in
  raised (scan env false w) =
    Some "Python int too large to convert to SQLite INTEGER" ∧
  world (final (scan env false w)) = w.
Proof.
  intros env w.
  destruct (query_error_ends_the_run env false w
              "Python int too large to convert to SQLite INTEGER")
    as (Hrun & Hworld & _).
  - vm_compute. reflexivity.
  - split; [|exact Hworld]. rewrite Hrun. reflexivity.
Defined.

(** ** Decimal ids *)

Section DecimalFacts.

Variable env : Env.

Local Abbreviation nd := (unicode_decimal env).

Lemma int_value_app (l1 l2 : Text) :
  int_value env (l1 ++ l2) =
  int_value env l1 * 10 ^ Z.of_nat (length l2) + int_value env l2.
Proof.
  unfold int_value. rewrite fold_left_app.
  generalize (fold_left (λ acc c, 10 * acc + default 0 (Re.decimal nd c)) l1 0).
  induction l2 as [|c l2 IH] using rev_ind; intros acc.
  - simpl. lia.
  - rewrite !fold_left_app, length_app. simpl. rewrite IH.
    rewrite Nat2Z.inj_add, Z.pow_add_r by lia.
    change (Z.of_nat 1) with 1. lia.
Qed.

Lemma int_value_cons (c : N) (l : Text) :
  int_value env (c :: l) =
  default 0 (Re.decimal nd c) * 10 ^ Z.of_nat (length l) + int_value env l.
Proof.
  change (c :: l) with ([c] ++ l). rewrite int_value_app.
  replace (int_value env [c]) with (default 0 (Re.decimal nd c)); [done |].
  unfold int_value. cbn [fold_left]. lia.
Qed.

Lemma pretty_N_char_digit (d : N) :
  (d < 10)%N →
  Re.decimal nd (N_of_ascii (pretty_N_char d)) = Some (Z.of_N d).
Proof.
  intros Hd.
  assert (d = 0 ∨ d = 1 ∨ d = 2 ∨ d = 3 ∨ d = 4 ∨ d = 5 ∨ d = 6 ∨ d = 7 ∨
          d = 8 ∨ d = 9)%N as Hcases by lia.
  repeat (destruct Hcases as [-> | Hcases]; [by vm_compute |]).
  subst. by vm_compute.
Qed.

Lemma pretty_N_go_int (x : N) (s : string) :
  Forall (λ c, Re.is_digit nd c = true) (text s) →
  Forall (λ c, Re.is_digit nd c = true) (text (pretty_N_go x s)) ∧
  int_value env (text (pretty_N_go x s)) =
  Z.of_N x * 10 ^ Z.of_nat (length (text s)) + int_value env (text s).
Proof.
  revert s. induction (N.lt_wf_0 x) as [x _ IH]; intros s Hs.
  assert (x = 0 ∨ 0 < x)%N as [-> | Hpos] by lia.
  - rewrite pretty_N_go_0. split; [done | lia].
  - rewrite pretty_N_go_step by done.
    pose proof (pretty_N_char_digit (x `mod` 10)
                  ltac:(apply N.mod_lt; lia)) as Hdigit.
    destruct (IH (x `div` 10)%N
                 ltac:(apply N.div_lt; lia)
                 (String (pretty_N_char (x `mod` 10)) s)) as [Hall Hint].
    { change (text (String (pretty_N_char (x `mod` 10)) s))
        with (N_of_ascii (pretty_N_char (x `mod` 10)) :: text s).
      constructor; [|done]. unfold Re.is_digit. by rewrite Hdigit. }
    split; [done |]. rewrite Hint.
    change (text (String (pretty_N_char (x `mod` 10)) s))
      with (N_of_ascii (pretty_N_char (x `mod` 10)) :: text s).
    rewrite int_value_cons, Hdigit. cbn [length default from_option id].
    unfold default. cbn [from_option id].
    rewrite Nat2Z.inj_succ, Z.pow_succ_r by lia.
    pose proof (N.div_mod x 10 ltac:(lia)) as Hx.
    apply (f_equal Z.of_N) in Hx.
    rewrite N2Z.inj_add, N2Z.inj_mul in Hx. change (Z.of_N 10) with 10 in Hx.
    nia.
Qed.

Lemma pretty_Z_int (z : Z) :
  0 ≤ z →
  text (pretty z) ≠ [] ∧
  Forall (λ c, Re.is_digit nd c = true) (text (pretty z)) ∧
  int_value env (text (pretty z)) = z.
Proof.
  intros Hz. destruct z as [|p|p]; [| |lia].
  - split_and!; [done | by repeat constructor | done].
  - change (pretty (Z.pos p)) with (pretty_N_go (N.pos p) "").
    destruct (pretty_N_go_int (N.pos p) "") as [Hall Hint]; [constructor |].
    change (text "") with (@nil N) in Hint.
    change (int_value env []) with 0 in Hint. cbn [length] in Hint.
    change (Z.of_nat 0) with 0 in Hint. rewrite Z.pow_0_r in Hint.
    change (Z.of_N (N.pos p)) with (Z.pos p) in Hint.
    split_and!; [|done | lia].
    intros Hempty. rewrite Hempty in Hint.
    change (int_value env []) with 0 in Hint. lia.
Qed.

End DecimalFacts.

(** The decimal numeral of an id, as the command prints it in its report,
    is read back from a marker as that id: wherever a text holds the
    marker whose digits are the numeral of a non-negative id,
    [re.findall] returns the numeral, and [int] converts it to that id
    when it has at most 4300 digits. *)
Theorem decimal_marker_yields_its_id (env : Env) (z : Z) (pre post : Text)
    (s : State) :
  0 ≤ z →
  (length (text (pretty z)) ≤ int_max_str_digits)%nat →
  text (pretty z) ∈
    Re.findall (unicode_decimal env) (pre ++ marker (text (pretty z)) ++ post) ∧
  int env (text (pretty z)) s = Ok z s.
Proof.
  intros Hz Hlen. destruct (pretty_Z_int env z Hz) as (Hne & Hdigits & Hint).
  split.
  - rewrite findall_marker by done.
    apply elem_of_app. right. apply list_elem_of_here.
  - unfold int. rewrite decide_False by lia. by rewrite Hint.
Qed.

Lemma decimal_marker_yields_its_id_witness :
  text "1234567" ∈
    Re.findall Examples.some_decimals
      (text "<img " ++ marker (text "1234567") ++ text ">") ∧
  int (Examples.sound []) (text "1234567") (start (Examples.store [])) =
    Ok 1234567 (start (Examples.store [])).
Proof.
  apply (decimal_marker_yields_its_id (Examples.sound []) 1234567
           (text "<img ") (text ">") (start (Examples.store []))).
  - lia.
  - vm_compute. lia.
Defined.

(** ** What no run does *)

Lemma purge_only_removes (env : Env) (images : list EditorImage.t) (w : World) :
  sublist (editor_images (purge env images w).1) (editor_images w) ∧
  media (purge env images w).1 ⊆ media w ∧
  (∀ name, name ∈ media w → name ∉ file_names images →
           name ∈ media (purge env images w).1).
Proof.
  revert w. induction images as [|image rest IH]; intros w; simpl.
  - split_and!; done.
  - assert (sublist (editor_images (unlink image w)) (editor_images w) ∧
            media (unlink image w) ⊆ media w ∧
            (∀ name, name ∈ media w → name ∉ file_names (image :: rest) →
                     name ∈ media (unlink image w))) as Hunlink.
    { unfold unlink. destruct (decide (EditorImage.image image = "")) as [?|Hn].
      - split_and!; done.
      - simpl. split_and!; [done | set_solver |].
        intros name Hin Hout. apply elem_of_difference. split; [done |].
        intros ->%elem_of_singleton. apply Hout, elem_of_file_names.
        split; [done |]. exists image. split; [apply list_elem_of_here | done]. }
    destruct (file_error env image) as [e|]; [by split_and! |].
    destruct (db_error env (EditorImage.id image)) as [e|]; [done |].
    destruct (IH (deleted image w)) as (Hrows & Hmedia & Hkeep).
    destruct Hunlink as (Hr1 & Hm1 & Hk1). split_and!.
    + etrans; [exact Hrows |]. rewrite deleted_rows. apply sublist_filter.
    + etrans; [exact Hmedia |]. done.
    + intros name Hin Hout. apply Hkeep.
      * by apply Hk1.
      * intros Hrest. apply Hout. rewrite file_names_cons.
        apply elem_of_union. by right.
Qed.

(** However a run ends, with a dry run, a completed deletion or an
    exception half way, it has only removed, and only what it found
    unused: the table is the old table with some rows left out, in the old
    order, no file has appeared, every row whose id is in the used set is
    still there, and so is every file that no stored image with an id
    outside the used set names.  Every id in the used set is referenced by
    a marker in some text attribute; when nothing raises during the scan,
    every referenced id is in the used set. *)
Theorem a_run_only_removes_the_unused (env : Env) (dry_run : bool)
    (w : World) :
  let s := final (scan env dry_run w) in
  sublist (editor_images (world s)) (editor_images w) ∧
  media (world s) ⊆ media w ∧
  (∀ row, row ∈ editor_images w → EditorImage.id row ∈ used_image_ids s →
          row ∈ editor_images (world s)) ∧
  (∀ name, name ∈ media w →
           (∀ image, image ∈ editor_images w →
                     EditorImage.image image = name →
                     EditorImage.id image ∈ used_image_ids s) →
           name ∈ media (world s)) ∧
  (∀ z, z ∈ used_image_ids s → referenced env z) ∧
  (error_free env → ∀ z, referenced env z → z ∈ used_image_ids s).
Proof.
  intros s. subst s. rewrite scan_used.
  assert ((∀ z, z ∈ scanned_ids env → referenced env z) ∧
          (error_free env → ∀ z, referenced env z → z ∈ scanned_ids env))
    as [Hsound Hcomplete].
  { split; [apply scanned_ids_sound |].
    intros Hfree z. by apply scanned_ids_referenced. }
  destruct (bind_error env (scanned_ids env)) as [e|] eqn:Hq.
  { rewrite (scan_query_raises env dry_run w e Hq). by split_and!. }
  destruct (scan_world env dry_run w Hq) as [-> _].
  destruct dry_run; [by split_and! |].
  destruct (purge_only_removes env (unused_images env w) w)
    as (Hrows & Hmedia & Hkeep).
  split_and!; try done.
  - intros row Hrow Href. apply purge_keeps; [done |].
    intros (row' & Heq & [_ Hn]%unused_images_elem)%list_elem_of_fmap.
    apply Hn. by rewrite <- Heq.
  - intros name Hin Hsafe. apply Hkeep; [done |].
    intros (_ & image & [Himage Hn]%unused_images_elem & Hname)%elem_of_file_names.
    by apply Hn, Hsafe.
Qed.

(** ** The command's tests, for any table and catalog *)

(** What [test_cleanup_dry_run] and [test_cleanup_finds_unused_images]
    check for two images holds in general.  When the table is not empty,
    no text attribute references the id of a stored image and the query
    runs, whatever else the registered models hold, a dry run counts every
    stored image as unused, gives its notice, lists each stored image
    once, newest first, and leaves all rows in the table. *)
Theorem unreferenced_images_are_all_listed (env : Env) (w : World) :
  editor_images w ≠ [] →
  (∀ image, image ∈ editor_images w →
            ¬ referenced env (EditorImage.id image)) →
  query_runs env →
  ∃ s, scan env true w = Ok tt s ∧
       editor_images (world s) = editor_images w ∧
       stdout s =
         header env w ++
         found_unused_line (length (editor_images w)) :: dry_run_line ::
         ((λ image, (PLAIN, would_delete_line image)) <$> listing w).
Proof.
  intros Hne Hnone Hq.
  assert (unused_images env w = listing w) as Hunused.
  { rewrite unused_images_listing. apply filter_all, Forall_forall.
    intros image Himage Hused. apply (proj1 (listing_elem _ _)) in Himage.
    by apply (Hnone image Himage), scanned_ids_sound. }
  pose proof (listing_length w) as Hlen.
  destruct (scan_world env true w Hq) as [Hworld Hraised].
  exists (final (scan env true w)).
  split; [by apply returned_of_raised |].
  split; [by rewrite Hworld |].
  rewrite scan_stdout, Hunused, Hlen by done.
  unfold unused_report, closing_lines.
  destruct (listing w) as [|image rest] eqn:Hall.
  - destruct (editor_images w); [done | discriminate Hlen].
  - rewrite <- Hlen. done.
Qed.

Lemma unreferenced_images_are_all_listed_witness :
  ∃ s, scan (Examples.sound
               [Examples.BlogPost [Examples.post "a" (text "<p>text</p>")]])
            true (Examples.store [Examples.image1; Examples.image2])
       = Ok tt s ∧
       editor_images (world s) = [Examples.image1; Examples.image2].
Proof.
  destruct (unreferenced_images_are_all_listed
              (Examples.sound
                 [Examples.BlogPost [Examples.post "a" (text "<p>text</p>")]])
              (Examples.store [Examples.image1; Examples.image2]))
    as (s & Hrun & Hrows & _).
  - discriminate.
  - intros image _ Href. apply scanned_ids_referenced in Href.
    + vm_compute in Href. discriminate Href.
    + apply plain_error_free. vm_compute. reflexivity.
  - vm_compute. reflexivity.
  - by exists s.
Defined.

(** * The scenarios of the specification, run *)

(** Malformed markers are passed over; digits of other scripts count. *)
Example findall_skips_malformed :
  int_value (Examples.sound []) <$>
    Re.findall Examples.some_decimals
      (text "<img " ++ marker (text "42") ++ text "><p>" ++
       marker (text "007") ++ marker (text "x") ++ marker [] ++
       marker [1633%N; 50%N; 65299%N])
  = [42; 7; 123].
Proof. vm_compute. reflexivity. Qed.

(** Images 1, 2 and 3; one post references image 2.  A dry run counts one
    used and two unused images, lists images 3 and 1, and deletes
    nothing. *)
Example dry_run_scenario :
  let w := Examples.store [Examples.image1; Examples.image2; Examples.image3] in
  let r := scan (Examples.sound [Examples.BlogPost
                                   [Examples.post "a" (Examples.img_tag "2")]])
                true w in
  stdout (final r) =
    [ (PLAIN, "Searching for models with text/HTML fields...");
      (PLAIN, "Found 3 uploaded images");
      (PLAIN, "Checking BlogPost...");
      (PLAIN, "Checked 1 models");
      (PLAIN, "Found 1 images in use");
      (PLAIN, "Found 2 unused images");
      (WARNING, "DRY RUN - No images will be deleted");
      (PLAIN, "  Would delete: editor_uploads/three.jpg (ID: 3)");
      (PLAIN, "  Would delete: editor_uploads/one.jpg (ID: 1)") ] ∧
  editor_images (world (final r)) = editor_images w.
Proof. split; vm_compute; reflexivity. Qed.

(** No image at all: nothing is found, nothing is deleted, no warning. *)
Example empty_store_scenario :
  stdout (final (scan (Examples.sound []) false (Examples.store []))) =
    [ (PLAIN, "Searching for models with text/HTML fields...");
      (PLAIN, "Found 0 uploaded images");
      (PLAIN, "Checked 0 models");
      (PLAIN, "Found 0 images in use");
      (SUCCESS, "No unused images found!") ].
Proof. vm_compute. reflexivity. Qed.

(** The two images of the command's tests, none referenced: both are
    deleted, the newer one first. *)
Example delete_two_scenario :
  let r := scan (Examples.sound []) false
                (Examples.store [Examples.image1; Examples.image2]) in
  stdout (final r) =
    [ (PLAIN, "Searching for models with text/HTML fields...");
      (PLAIN, "Found 2 uploaded images");
      (PLAIN, "Checked 0 models");
      (PLAIN, "Found 0 images in use");
      (PLAIN, "Found 2 unused images");
      (PLAIN, "Deleting: editor_uploads/two.jpg (ID: 2)");
      (PLAIN, "Deleting: editor_uploads/one.jpg (ID: 1)");
      (SUCCESS, "Successfully deleted 2 unused images") ] ∧
  editor_images (world (final r)) = [] ∧
  elements (media (world (final r))) = [].
Proof. split_and!; vm_compute; reflexivity. Qed.

(** A marker for the id 2^63 on SQLite: the run ends at the query. *)
Example query_error_scenario :
  let r := scan (Examples.sound
                   [Examples.BlogPost
                      [Examples.post "a" (Examples.img_tag MoreExamples.huge)]])
                true (Examples.store [Examples.image1]) in
  raised r = Some "Python int too large to convert to SQLite INTEGER" ∧
  stdout (final r) =
    [ (PLAIN, "Searching for models with text/HTML fields...");
      (PLAIN, "Found 1 uploaded images");
      (PLAIN, "Checking BlogPost...");
      (PLAIN, "Checked 1 models");
      (PLAIN, "Found 1 images in use") ].
Proof. split; vm_compute; reflexivity. Qed.
